(** * Catchmind game server: the room registry, the round controller and
      the socket gateway of [game.service.ts] / [game.gateway.ts].

    The service keeps one process-wide [Map<string, Room>]; every room
    owns an insertion-ordered [Map<string, Player>], a stroke array and
    the two optional fields [currentWord] and [roundOwner].  The
    development below embeds the service functions one by one as pure
    functions that pass the registry explicitly, embeds the gateway
    handlers as functions that also return the list of emitted socket
    events, and then states the properties of the specification. *)

From stdpp Require Import gmap strings list fin_maps.
From Stdlib Require Import ZArith Ascii String.

Open Scope string_scope.
Open Scope Z_scope.

(** ** JavaScript strings

    A JavaScript string is modelled by the Rocq string that holds its
    UTF-8 text.  [trim] removes the ECMAScript [WhiteSpace] and
    [LineTerminator] code points from both ends; [toLowerCase] maps the
    Basic Latin capitals.  The model of [toLowerCase] is exact on text
    whose characters outside Basic Latin have no lower-case mapping, which
    includes the Hangul syllables of [mockWords]. *)

Module JsString.

Definition of_codes (l : list nat) : string :=
  string_of_list_ascii (List.map ascii_of_nat l).

(** The code points that [String.prototype.trim] strips, as UTF-8:
    U+0009..U+000D, U+0020, U+00A0, U+1680, U+2000..U+200A, U+2028,
    U+2029, U+202F, U+205F, U+3000 and U+FEFF. *)
Definition whiteSpace : list (list nat) :=
  [ [9]; [10]; [11]; [12]; [13]; [32];
    [194; 160];
    [225; 154; 128];
    [226; 128; 128]; [226; 128; 129]; [226; 128; 130]; [226; 128; 131];
    [226; 128; 132]; [226; 128; 133]; [226; 128; 134]; [226; 128; 135];
    [226; 128; 136]; [226; 128; 137]; [226; 128; 138];
    [226; 128; 168]; [226; 128; 169]; [226; 128; 175];
    [226; 129; 159];
    [227; 128; 128];
    [239; 187; 191] ]%nat.

Fixpoint strip_prefix (p s : string) : option string :=
  match p with
  | EmptyString => Some s
  | String a p' =>
      match s with
      | String b s' => if Ascii.eqb a b then strip_prefix p' s' else None
      | EmptyString => None
      end
  end.

Fixpoint strip_any (toks : list string) (s : string) : option string :=
  match toks with
  | [] => None
  | t :: toks' =>
      match strip_prefix t s with
      | Some r => Some r
      | None => strip_any toks' s
      end
  end.

Fixpoint strip_all (fuel : nat) (toks : list string) (s : string) : string :=
  match fuel with
  | O => s
  | S fuel' =>
      match strip_any toks s with
      | Some r => strip_all fuel' toks r
      | None => s
      end
  end.

Definition reverse (s : string) : string :=
  string_of_list_ascii (List.rev (list_ascii_of_string s)).

Definition trimStart (s : string) : string :=
  strip_all (String.length s) (List.map of_codes whiteSpace) s.

Definition trimEnd (s : string) : string :=
  reverse
    (strip_all (String.length s)
       (List.map (fun t => of_codes (List.rev t)) whiteSpace) (reverse s)).

Definition trim (s : string) : string := trimEnd (trimStart s).

Definition lower_ascii (c : ascii) : ascii :=
  let n := nat_of_ascii c in
  if (65 <=? n)%nat && (n <=? 90)%nat then ascii_of_nat (n + 32) else c.

Fixpoint toLowerCase (s : string) : string :=
  match s with
  | EmptyString => EmptyString
  | String c s' => String (lower_ascii c) (toLowerCase s')
  end.

(** Truthiness of a value of type [string | undefined]: [undefined] and
    the empty string are falsy. *)
Definition truthy (o : option string) : bool :=
  match o with
  | Some s => negb (String.eqb s "")
  | None => false
  end.

End JsString.

(** ** JavaScript [Map<string, V>]: a map that iterates in insertion order *)

Module JsMap.
Section JsMap.
Context {V : Type}.

Definition t := list (string * V).

Definition empty : t := [].

Fixpoint get (k : string) (m : t) : option V :=
  match m with
  | [] => None
  | (k', v) :: m' => if String.eqb k k' then Some v else get k m'
  end.

Definition has (k : string) (m : t) : bool :=
  match get k m with Some _ => true | None => false end.

(** [set] on a key already present keeps the key's position. *)
Fixpoint set (k : string) (v : V) (m : t) : t :=
  match m with
  | [] => [(k, v)]
  | (k', v') :: m' =>
      if String.eqb k k' then (k, v) :: m' else (k', v') :: set k v m'
  end.

(** [delete]: keys are unique in a [Map], so dropping every entry under
    [k] drops the one there is. *)
Definition remove (k : string) (m : t) : t :=
  List.filter (fun kv => negb (String.eqb k (fst kv))) m.

(** In-place mutation of the object stored under [k]. *)
Fixpoint mutate (f : V -> V) (k : string) (m : t) : t :=
  match m with
  | [] => []
  | (k', v') :: m' =>
      if String.eqb k k' then (k', f v') :: m' else (k', v') :: mutate f k m'
  end.

Definition values (m : t) : list V := List.map snd m.

Definition keys (m : t) : list string := List.map fst m.

Definition size (m : t) : Z := Z.of_nat (List.length m).

End JsMap.
Arguments t : clear implicits.
End JsMap.

(** ** Data model *)

(** Drawing records and raw event payloads are [any] in the source. *)
#[local] Unset Elimination Schemes.
Inductive JsValue : Type :=
  | JsUndefined
  | JsNull
  | JsBoolean (b : bool)
  | JsNumber (n : Z)
  | JsText (s : string)
  | JsArray (items : list JsValue)
  | JsObject (fields : list (string * JsValue)).
#[local] Set Elimination Schemes.

Definition mockWords : list string :=
  [ "사과"; "바나나"; "컴퓨터"; "자동차"; "커피";
    "의자"; "책상"; "휴대폰"; "자전거"; "카메라" ].

(** [score] is a JavaScript number that starts at 0 and only ever grows
    by 10; such values are exact, and the field is an integer here. *)
Record Player : Type := mkPlayer {
  socketId : string;
  name : string;
  score : Z
}.

Record Room : Type := mkRoom {
  id : string;
  players : JsMap.t Player;
  shapes : list JsValue;
  currentWord : option string;
  roundOwner : option string
}.

Definition set_players (f : JsMap.t Player -> JsMap.t Player) (r : Room) : Room :=
  mkRoom (id r) (f (players r)) (shapes r) (currentWord r) (roundOwner r).

Definition set_shapes (s : list JsValue) (r : Room) : Room :=
  mkRoom (id r) (players r) s (currentWord r) (roundOwner r).

Definition set_round (w o : option string) (r : Room) : Room :=
  mkRoom (id r) (players r) (shapes r) w o.

(** The private field [rooms] of [GameService]. *)
Abbreviation Rooms := (gmap string Room).

(** ** [GameService] *)

(** The two shapes of object that [checkGuess] returns:
    [{ correct: false }] and [{ correct: true, playerName, score }]. *)
Inductive GuessResult : Type :=
  | Wrong
  | Right (playerName : option string) (newScore : Z).

Definition correct (res : GuessResult) : bool :=
  match res with Wrong => false | Right _ _ => true end.

(** [res.score], which is [undefined] on [{ correct: false }]. *)
Definition score_of (res : GuessResult) : option Z :=
  match res with Wrong => None | Right _ s => Some s end.

(** The object literal returned by [getRoomState]. *)
Record RoomState : Type := mkRoomState {
  state_players : list Player;
  state_shapes : list JsValue;
  state_currentWord : bool;
  state_roundOwner : option string
}.

Module GameService.

Definition newRoom (roomId : string) : Room :=
  mkRoom roomId JsMap.empty [] None None.

Definition ensureRoom (roomId : string) (rooms : Rooms) : Room * Rooms :=
  match rooms !! roomId with
  | Some room => (room, rooms)
  | None => (newRoom roomId, <[roomId := newRoom roomId]> rooms)
  end.

(** [mockWords[Math.floor(Math.random() * mockWords.length)]], where [k]
    stands for the index that the random draw produced.  An index outside
    the array reads [undefined], as in JavaScript. *)
Definition randomWord (k : nat) : option string := mockWords !! k.

Definition addPlayer (roomId socketId name : string) (k : nat)
    (rooms : Rooms) : Rooms :=
  let '(room, rooms) := ensureRoom roomId rooms in
  let room := set_players (JsMap.set socketId (mkPlayer socketId name 0)) room in
  let room :=
    if negb (JsString.truthy (roundOwner room))
    then set_round (randomWord k) (Some socketId) room
    else room in
  <[roomId := room]> rooms.

Definition removePlayer (socketId : string) (room : Room) : Room :=
  if JsMap.has socketId (players room)
  then set_players (JsMap.remove socketId) room
  else room.

Definition removePlayerFromAll (socketId : string) (rooms : Rooms) : Rooms :=
  removePlayer socketId <$> rooms.

Definition appendShape (roomId : string) (shape : JsValue)
    (rooms : Rooms) : Rooms :=
  let '(room, rooms) := ensureRoom roomId rooms in
  <[roomId := set_shapes (shapes room ++ [shape]) room]> rooms.

Definition getRoomState (roomId : string) (rooms : Rooms) : RoomState * Rooms :=
  let '(room, rooms) := ensureRoom roomId rooms in
  (mkRoomState (JsMap.values (players room)) (shapes room)
     (if JsString.truthy (currentWord room) then true else false)
     (roundOwner room),
   rooms).

Definition getCurrentWord (roomId : string) (rooms : Rooms) : option string :=
  match rooms !! roomId with
  | Some room => currentWord room
  | None => None
  end.

Definition setCurrentWord (roomId word ownerSocketId : string)
    (rooms : Rooms) : Rooms :=
  let '(room, rooms) := ensureRoom roomId rooms in
  <[roomId := set_round (Some word) (Some ownerSocketId) room]> rooms.

Definition addScore (n : Z) (p : Player) : Player :=
  mkPlayer (socketId p) (name p) (score p + n).

Definition checkGuess (roomId socketId guess : string)
    (rooms : Rooms) : GuessResult * Rooms :=
  let '(room, rooms) := ensureRoom roomId rooms in
  if negb (JsString.truthy (currentWord room)) then (Wrong, rooms)
  else
    let word := default "" (currentWord room) in
    let isCorrect :=
      String.eqb (JsString.toLowerCase (JsString.trim word))
                 (JsString.toLowerCase (JsString.trim guess)) in
    if isCorrect then
      match JsMap.get socketId (players room) with
      | Some player =>
          let room := set_players (JsMap.mutate (addScore 10) socketId) room in
          (Right (Some (name player)) (score player + 10),
           <[roomId := room]> rooms)
      | None => (Right None 0, rooms)
      end
    else (Wrong, rooms).

(** [players.findIndex(p => p.socketId === owner)]: the first index whose
    player carries the owner's id, or [-1]. *)
Fixpoint findIndex (owner : option string) (ps : list Player) : Z :=
  match ps with
  | [] => -1
  | p :: ps' =>
      if bool_decide (Some (socketId p) = owner) then 0
      else
        let i := findIndex owner ps' in
        if i <? 0 then -1 else i + 1
  end.

Definition nextPresenterIndex (owner : option string) (ps : list Player) : Z :=
  Z.rem (findIndex owner ps + 1) (Z.of_nat (List.length ps)).

(** The value returned by [startNextRound]: [null], or the object
    [{ nextPresenter, newWord }].  Past the size test the player array is
    not empty, and [players[nextPresenterIndex]] is read with its first
    element as the filler of the list access ([nextPresenterIndex_range]
    shows that the index is always inside the array). *)
Definition startNextRound (roomId : string) (k : nat)
    (rooms : Rooms) : option (Player * option string) * Rooms :=
  let '(room, rooms) := ensureRoom roomId rooms in
  if JsMap.size (players room) =? 0 then (None, rooms)
  else
    match JsMap.values (players room) with
    | [] => (None, rooms)
    | (first :: _) as ps =>
        let nextPresenter :=
          List.nth (Z.to_nat (nextPresenterIndex (roundOwner room) ps)) ps first in
        let room :=
          set_shapes []
            (set_round (randomWord k) (Some (socketId nextPresenter)) room) in
        (Some (nextPresenter, currentWord room), <[roomId := room]> rooms)
    end.

End GameService.

(** ** [GameGateway]

    A handler returns the registry it leaves behind together with what it
    sent: the socket events in emission order, the log lines, the timers
    it armed, and whether it returned or threw. *)

(** Where an event is sent: [client.emit] reaches one socket,
    [server.to(r)] every socket of the Socket.IO room [r], and
    [client.to(r)] / [client.broadcast.to(r)] that room without the
    sender. *)
Inductive Target : Type :=
  | ToSocket (socket : string)
  | ToRoom (room : string)
  | ToRoomExcept (room sender : string).

Inductive Message : Type :=
  | initialState (state : RoomState)
  | userJoined (joinedId joinedName : string)
  | presenterAssigned (presenterId presenterName : string)
  | roundStarted (word : option string)
  | drawingRemote (from : string) (data : JsValue)
  | guessResult (from : string) (playerName : option string) (guess : string)
      (isCorrect : bool) (newScore : option Z)
  | roundEnded (winnerId : string) (winnerName : option string)
      (winnerScore : option Z)
  | newRoundStarting
  | userLeft (leftId : string).

Record Emit : Type := mkEmit { target : Target; message : Message }.

Inductive Outcome : Type :=
  | Returned
  | Threw (error : string).

(** [setTimeout(() => ..., delay)] of [onGuess], for the room it closes over. *)
Record Timer : Type := mkTimer { timer_room : string; timer_delay : Z }.

Record Handled : Type := mkHandled {
  rooms_after : Rooms;
  emitted : list Emit;
  logged : list string;
  armed : list Timer;
  outcome : Outcome
}.

Module GameGateway.

(** [payload.key] of a plain object; an absent property reads [undefined]. *)
Fixpoint prop (key : string) (payload : list (string * JsValue)) : JsValue :=
  match payload with
  | [] => JsUndefined
  | (k, v) :: rest => if String.eqb key k then v else prop key rest
  end.

Definition isString (v : JsValue) : option string :=
  match v with JsText s => Some s | _ => None end.



Definition validateGuess (payload : list (string * JsValue)) : option (string * string) :=
  match isString (prop "roomId" payload), isString (prop "guess" payload) with
  | Some roomId, Some guess => Some (roomId, guess)
  | _, _ => None
  end.

Definition rejected (rooms : Rooms) : Handled :=
  mkHandled rooms [] [] [] (Threw "Validation failed").

(** [players.find(p => p.socketId === owner)] *)
Definition find (owner : option string) (ps : list Player) : option Player :=
  List.find (fun p => bool_decide (Some (socketId p) = owner)) ps.




Definition onGuess (payload : list (string * JsValue)) (client : string)
    (rooms : Rooms) : Handled :=
  match validateGuess payload with
  | None => rejected rooms
  | Some (roomId, guess) =>
      let '(res, rooms) := GameService.checkGuess roomId client guess rooms in
      let '(roomState, rooms) := GameService.getRoomState roomId rooms in
      let guesser := find (Some client) (state_players roomState) in
      let guesserName := name <$> guesser in
      let result :=
        mkEmit (ToRoom roomId)
          (guessResult client
             (match res with Right playerName _ => playerName | Wrong => guesserName end)
             guess (correct res) (score_of res)) in
      if correct res then
        mkHandled rooms
          [result;
           mkEmit (ToRoom roomId) (roundEnded client guesserName (score_of res))]
          [] [mkTimer roomId 3000] Returned
      else mkHandled rooms [result] [] [] Returned
  end.

(** The callback that the timer of [onGuess] runs. *)
Definition onGuessTimeout (roomId : string) (k : nat) (rooms : Rooms) : Handled :=
  match GameService.startNextRound roomId k rooms with
  | (Some (nextPresenter, newWord), rooms) =>
      mkHandled rooms
        [mkEmit (ToRoom roomId) newRoundStarting;
         mkEmit (ToRoom roomId)
           (presenterAssigned (socketId nextPresenter) (name nextPresenter));
         mkEmit (ToRoom (socketId nextPresenter)) (roundStarted newWord)]
        [] [] Returned
  | (None, rooms) => mkHandled rooms [] [] [] Returned
  end.


End GameGateway.

(** ** Sequences of service calls *)

(** One call of a public method of [GameService] that can touch the
    registry.  The calls that draw a random word carry the index drawn. *)
Inductive Op : Type :=
  | EnsureRoom (roomId : string)
  | AddPlayer (roomId socketId name : string) (k : nat)
  | RemovePlayerFromAll (socketId : string)
  | AppendShape (roomId : string) (shape : JsValue)
  | GetRoomState (roomId : string)
  | SetCurrentWord (roomId word ownerSocketId : string)
  | CheckGuess (roomId socketId guess : string)
  | StartNextRound (roomId : string) (k : nat).

Definition step (op : Op) (rooms : Rooms) : Rooms :=
  match op with
  | EnsureRoom roomId => (GameService.ensureRoom roomId rooms).2
  | AddPlayer roomId socketId name k =>
      GameService.addPlayer roomId socketId name k rooms
  | RemovePlayerFromAll socketId => GameService.removePlayerFromAll socketId rooms
  | AppendShape roomId shape => GameService.appendShape roomId shape rooms
  | GetRoomState roomId => (GameService.getRoomState roomId rooms).2
  | SetCurrentWord roomId word owner =>
      GameService.setCurrentWord roomId word owner rooms
  | CheckGuess roomId socketId guess =>
      (GameService.checkGuess roomId socketId guess rooms).2
  | StartNextRound roomId k => (GameService.startNextRound roomId k rooms).2
  end.

(** [Math.floor(Math.random() * mockWords.length)] is an index of
    [mockWords]. *)
Definition drawn (op : Op) : Prop :=
  match op with
  | AddPlayer _ _ _ k | StartNextRound _ k => (k < List.length mockWords)%nat
  | _ => True
  end.

(** The registries that sequences of calls build from the empty one, each
    call being allowed by [ok] in the registry it runs in. *)
Inductive reachable_by (ok : Rooms -> Op -> Prop) : Rooms -> Prop :=
  | reachable_init : reachable_by ok ∅
  | reachable_step rooms op :
      reachable_by ok rooms -> ok rooms op -> reachable_by ok (step op rooms).

Definition reachable : Rooms -> Prop := reachable_by (fun _ op => drawn op).

Definition run (ops : list Op) (rooms : Rooms) : Rooms :=
  List.fold_left (fun rooms op => step op rooms) ops rooms.

(** The room that the service works on for [roomId]: what [ensureRoom]
    returns, a fresh room when the id was never seen. *)
Definition room_at (roomId : string) (rooms : Rooms) : Room :=
  (GameService.ensureRoom roomId rooms).1.

(** *** The effect of a call on one room

    Every method first calls [ensureRoom] and then works on the room
    object it got.  The definitions below name that work on the room; the
    lemmas [*_rooms] further down show that each method is [ensureRoom]
    followed by exactly this update. *)

Definition joined (socketId name : string) (k : nat) (room : Room) : Room :=
  let room := set_players (JsMap.set socketId (mkPlayer socketId name 0)) room in
  if negb (JsString.truthy (roundOwner room))
  then set_round (GameService.randomWord k) (Some socketId) room
  else room.

Definition normalize (s : string) : string :=
  JsString.toLowerCase (JsString.trim s).

Definition matches (room : Room) (guess : string) : bool :=
  JsString.truthy (currentWord room)
  && String.eqb (normalize (default "" (currentWord room))) (normalize guess).

Definition guessed (socketId guess : string) (room : Room) : Room :=
  if matches room guess && JsMap.has socketId (players room)
  then set_players (JsMap.mutate (GameService.addScore 10) socketId) room
  else room.

Definition nextPresenter (room : Room) : option Player :=
  match JsMap.values (players room) with
  | [] => None
  | (first :: _) as ps =>
      Some (List.nth
              (Z.to_nat (GameService.nextPresenterIndex (roundOwner room) ps))
              ps first)
  end.

Definition advanced (k : nat) (room : Room) : Room :=
  match nextPresenter room with
  | None => room
  | Some p =>
      set_shapes [] (set_round (GameService.randomWord k) (Some (socketId p)) room)
  end.

Definition on_room (op : Op) (roomId : string) (room : Room) : Room :=
  match op with
  | EnsureRoom _ | GetRoomState _ => room
  | AddPlayer roomId' socketId name k =>
      if String.eqb roomId roomId' then joined socketId name k room else room
  | RemovePlayerFromAll socketId => GameService.removePlayer socketId room
  | AppendShape roomId' shape =>
      if String.eqb roomId roomId'
      then set_shapes (shapes room ++ [shape]) room else room
  | SetCurrentWord roomId' word owner =>
      if String.eqb roomId roomId'
      then set_round (Some word) (Some owner) room else room
  | CheckGuess roomId' socketId guess =>
      if String.eqb roomId roomId' then guessed socketId guess room else room
  | StartNextRound roomId' k =>
      if String.eqb roomId roomId' then advanced k room else room
  end.

(** *** Predicates on rooms *)

(** The optional field holds a value ([!== undefined]). *)
Definition is_set (o : option string) : Prop := is_Some o.

(** [roundOwner] and [currentWord] are both set or both unset. *)
Definition paired (room : Room) : Prop :=
  is_set (roundOwner room) <-> is_set (currentWord room).

(** Every player object sits under its own [socketId]. *)
Definition keyed (room : Room) : Prop :=
  List.Forall (fun kv => socketId (snd kv) = fst kv) (players room).

(** No two entries of [players] share a key. *)
Definition distinct_keys (room : Room) : Prop :=
  NoDup (JsMap.keys (players room)).

Definition member (socketId : string) (room : Room) : Prop :=
  JsMap.has socketId (players room) = true.

(** The presenter, if set, is a key of [players]. *)
Definition presenter_member (room : Room) : Prop :=
  forall owner, roundOwner room = Some owner -> member owner room.

(** A call that cannot take the presenter out of [players]: it does not
    remove the presenter of a room and does not name a non-member as
    owner. *)
Definition keeps_presenter (rooms : Rooms) (op : Op) : Prop :=
  match op with
  | RemovePlayerFromAll socketId =>
      forall roomId, roundOwner (room_at roomId rooms) <> Some socketId
  | SetCurrentWord roomId _ owner => member owner (room_at roomId rooms)
  | _ => True
  end.



(** *** Calls as the gateway makes them *)

(** The room a call names; [removePlayerFromAll] names none. *)
Definition addressed (op : Op) : option string :=
  match op with
  | EnsureRoom r | AddPlayer r _ _ _ | AppendShape r _ | GetRoomState r
  | SetCurrentWord r _ _ | CheckGuess r _ _ | StartNextRound r _ => Some r
  | RemovePlayerFromAll _ => None
  end.

(** The gateway calls every method of the service except
    [setCurrentWord]. *)
Definition from_gateway (op : Op) : Prop :=
  drawn op /\ match op with SetCurrentWord _ _ _ => False | _ => True end.

Definition played : Rooms -> Prop := reachable_by (fun _ op => from_gateway op).

(** Consecutive [startNextRound] calls on one room, one per index drawn. *)
Definition rounds (roomId : string) (ks : list nat) : list Op :=
  List.map (StartNextRound roomId) ks.

(** Consecutive [appendShape] calls on one room. *)
Definition strokes (roomId : string) (records : list JsValue) : list Op :=
  List.map (AppendShape roomId) records.

Definition guess_payload (roomId guess : string) : list (string * JsValue) :=
  [ ("roomId", JsText roomId); ("guess", JsText guess) ].

(** A score that [checkGuess] can have built: 0 plus tens. *)
Definition tens (p : Player) : Prop := 0 <= score p /\ (10 | score p).

(** *** A sample session *)

Definition game_trace : list Op :=
  [ AddPlayer "r1" "A" "alice" 0; AddPlayer "r1" "B" "bob" 3;
    AppendShape "r1" (JsObject [("x", JsNumber 1)]);
    CheckGuess "r1" "B" " 사과 "; StartNextRound "r1" 2;
    RemovePlayerFromAll "A"; SetCurrentWord "r2" "Apple " "C";
    GetRoomState "r3"; EnsureRoom "r4" ].

(** The room of the specification's example: secret ["Apple "], presenter
    [P], one more player [G]. *)
Definition apple_rooms : Rooms :=
  run [ AddPlayer "r" "P" "pat" 0; AddPlayer "r" "G" "gil" 0;
        SetCurrentWord "r" "Apple " "P" ] ∅.

(** The rooms of the round-robin example: join order [A], [B], [C]; the
    first to join presents, and each further round moves the role on. *)
Definition abc_rooms : Rooms :=
  run [ AddPlayer "r" "A" "a" 0; AddPlayer "r" "B" "b" 0;
        AddPlayer "r" "C" "c" 0 ] ∅.

Definition abc_presenter_B : Rooms := step (StartNextRound "r" 1) abc_rooms.

Definition abc_presenter_C : Rooms := step (StartNextRound "r" 2) abc_presenter_B.

(** The presenter [B] leaves (disconnects). *)
Definition abc_B_left : Rooms := step (RemovePlayerFromAll "B") abc_presenter_B.

(** A session in which the presenter role moves to [B] before [A]
    leaves, and an owner is named among the members. *)
Definition member_rooms : Rooms :=
  step (SetCurrentWord "r1" "Apple" "B")
    (step (RemovePlayerFromAll "A")
       (step (StartNextRound "r1" 2)
          (step (AddPlayer "r1" "B" "bob" 3)
             (step (AddPlayer "r1" "A" "alice" 0) ∅)))).

(** The sole player, who presents, leaves. *)
Definition presenter_left : Rooms :=
  run [ AddPlayer "r1" "A" "alice" 0; RemovePlayerFromAll "A" ] ∅.

(** A rejoin after a correct guess. *)
Definition scored_rooms : Rooms :=
  run [ AddPlayer "r1" "A" "alice" 0; AddPlayer "r1" "B" "bob" 3;
        CheckGuess "r1" "B" " 사과 " ] ∅.

(** * Properties *)

(** ** The insertion-ordered map *)

Section JsMapFacts.
Context {V : Type}.
Implicit Types (m : JsMap.t V) (k : string) (v : V).

Lemma get_set_eq k v m : JsMap.get k (JsMap.set k v m) = Some v.
Proof.
  induction m as [|[k' v'] m IH]; simpl.
  - by rewrite String.eqb_refl.
  - destruct (String.eqb_spec k k') as [->|Hne]; simpl.
    + by rewrite String.eqb_refl.
    + destruct (String.eqb_spec k k'); [done | exact IH].
Qed.

Lemma get_set_ne k k' v m :
  k <> k' -> JsMap.get k' (JsMap.set k v m) = JsMap.get k' m.
Proof.
  intros Hne. induction m as [|[k0 v0] m IH]; simpl.
  - destruct (String.eqb_spec k' k); [congruence | done].
  - destruct (String.eqb_spec k k0) as [->|Hk]; simpl.
    + destruct (String.eqb_spec k' k0); [congruence | done].
    + destruct (String.eqb_spec k' k0); [done | exact IH].
Qed.

Lemma get_remove_eq k m : JsMap.get k (JsMap.remove k m) = None.
Proof.
  unfold JsMap.remove. induction m as [|[k' v'] m IH]; simpl; [done|].
  destruct (String.eqb_spec k k') as [->|Hne]; simpl; [exact IH|].
  destruct (String.eqb_spec k k'); [done | exact IH].
Qed.

Lemma get_remove_ne k k' m :
  k <> k' -> JsMap.get k' (JsMap.remove k m) = JsMap.get k' m.
Proof.
  intros Hne. unfold JsMap.remove. induction m as [|[k0 v0] m IH]; simpl; [done|].
  destruct (String.eqb_spec k k0) as [->|Hk]; simpl.
  - destruct (String.eqb_spec k' k0); [congruence | exact IH].
  - destruct (String.eqb_spec k' k0); [done | exact IH].
Qed.

Lemma get_mutate_eq (f : V -> V) k m :
  JsMap.get k (JsMap.mutate f k m) = f <$> JsMap.get k m.
Proof.
  induction m as [|[k' v'] m IH]; simpl; [done|].
  destruct (String.eqb_spec k k') as [->|Hne]; simpl.
  - by rewrite String.eqb_refl.
  - destruct (String.eqb_spec k k'); [done | exact IH].
Qed.

Lemma get_mutate_ne (f : V -> V) k k' m :
  k <> k' -> JsMap.get k' (JsMap.mutate f k m) = JsMap.get k' m.
Proof.
  intros Hne. induction m as [|[k0 v0] m IH]; simpl; [done|].
  destruct (String.eqb_spec k k0) as [->|Hk]; simpl.
  - destruct (String.eqb_spec k' k0); [congruence | done].
  - destruct (String.eqb_spec k' k0); [done | exact IH].
Qed.

Lemma keys_mutate (f : V -> V) k m :
  JsMap.keys (JsMap.mutate f k m) = JsMap.keys m.
Proof.
  unfold JsMap.keys. induction m as [|[k' v'] m IH]; simpl; [done|].
  destruct (String.eqb k k'); simpl; [done | by rewrite IH].
Qed.

Lemma has_get k m : JsMap.has k m = true <-> is_Some (JsMap.get k m).
Proof.
  unfold JsMap.has. destruct (JsMap.get k m); split; intros H; done.
Qed.

Lemma has_keys k m : JsMap.has k m = true <-> In k (JsMap.keys m).
Proof.
  unfold JsMap.has, JsMap.keys. induction m as [|[k' v'] m IH]; simpl.
  - split; [done | tauto].
  - destruct (String.eqb_spec k k') as [->|Hne].
    + split; [by left | done].
    + rewrite IH. split; [by right | intros [?|?]; congruence].
Qed.

Lemma get_values k v m : JsMap.get k m = Some v -> In v (JsMap.values m).
Proof.
  unfold JsMap.values. induction m as [|[k' v'] m IH]; simpl; [done|].
  destruct (String.eqb k k'); [intros [= ->]; by left | intros; right; auto].
Qed.

End JsMapFacts.

(** ** The registry: every method is [ensureRoom] plus an update of one room *)

Lemma room_at_Some roomId rooms room :
  rooms !! roomId = Some room -> room_at roomId rooms = room.
Proof. intros H. unfold room_at, GameService.ensureRoom. by rewrite H. Qed.

Lemma room_at_None roomId rooms :
  rooms !! roomId = None -> room_at roomId rooms = GameService.newRoom roomId.
Proof. intros H. unfold room_at, GameService.ensureRoom. by rewrite H. Qed.

Lemma ensureRoom_rooms roomId rooms :
  GameService.ensureRoom roomId rooms
  = (room_at roomId rooms, <[roomId := room_at roomId rooms]> rooms).
Proof.
  unfold room_at, GameService.ensureRoom.
  destruct (rooms !! roomId) as [room|] eqn:H; simpl; [|done].
  by rewrite insert_id.
Qed.

Lemma room_at_insert roomId roomId' room rooms :
  room_at roomId' (<[roomId := room]> rooms)
  = if String.eqb roomId' roomId then room else room_at roomId' rooms.
Proof.
  unfold room_at, GameService.ensureRoom.
  destruct (String.eqb_spec roomId' roomId) as [->|Hne].
  - rewrite lookup_insert_eq. reflexivity.
  - rewrite lookup_insert_ne by congruence.
    by destruct (rooms !! roomId').
Qed.

Lemma removePlayer_newRoom socketId roomId :
  GameService.removePlayer socketId (GameService.newRoom roomId)
  = GameService.newRoom roomId.
Proof. reflexivity. Qed.

Lemma room_at_removePlayerFromAll socketId roomId rooms :
  room_at roomId (GameService.removePlayerFromAll socketId rooms)
  = GameService.removePlayer socketId (room_at roomId rooms).
Proof.
  unfold room_at, GameService.ensureRoom, GameService.removePlayerFromAll.
  rewrite lookup_fmap. by destruct (rooms !! roomId).
Qed.

Lemma ensureRoom_step roomId rooms :
  (GameService.ensureRoom roomId rooms).2 = <[roomId := room_at roomId rooms]> rooms.
Proof. by rewrite ensureRoom_rooms. Qed.

Lemma addPlayer_rooms roomId socketId name k rooms :
  GameService.addPlayer roomId socketId name k rooms
  = <[roomId := joined socketId name k (room_at roomId rooms)]> rooms.
Proof.
  unfold GameService.addPlayer. rewrite ensureRoom_rooms.
  by rewrite insert_insert_eq.
Qed.

Lemma appendShape_rooms roomId shape rooms :
  GameService.appendShape roomId shape rooms
  = <[roomId := set_shapes (shapes (room_at roomId rooms) ++ [shape])
                  (room_at roomId rooms)]> rooms.
Proof.
  unfold GameService.appendShape. rewrite ensureRoom_rooms.
  by rewrite insert_insert_eq.
Qed.

Lemma setCurrentWord_rooms roomId word owner rooms :
  GameService.setCurrentWord roomId word owner rooms
  = <[roomId := set_round (Some word) (Some owner) (room_at roomId rooms)]> rooms.
Proof.
  unfold GameService.setCurrentWord. rewrite ensureRoom_rooms.
  by rewrite insert_insert_eq.
Qed.

Lemma getRoomState_rooms roomId rooms :
  (GameService.getRoomState roomId rooms).2
  = <[roomId := room_at roomId rooms]> rooms.
Proof. unfold GameService.getRoomState. by rewrite ensureRoom_rooms. Qed.

Lemma checkGuess_rooms roomId socketId guess rooms :
  (GameService.checkGuess roomId socketId guess rooms).2
  = <[roomId := guessed socketId guess (room_at roomId rooms)]> rooms.
Proof.
  unfold GameService.checkGuess, guessed, matches, normalize.
  rewrite ensureRoom_rooms. set (room := room_at roomId rooms).
  unfold JsMap.has.
  destruct (JsString.truthy (currentWord room)); simpl; [|done].
  destruct (String.eqb _ _); simpl; [|done].
  destruct (JsMap.get socketId (players room)); simpl; [|done].
  by rewrite insert_insert_eq.
Qed.

Lemma size_zero {V} (m : JsMap.t V) : (JsMap.size m =? 0) = true <-> m = [].
Proof.
  unfold JsMap.size. destruct m; simpl; [done|].
  split; intros H; discriminate H.
Qed.

Lemma values_nil {V} (m : JsMap.t V) : JsMap.values m = [] <-> m = [].
Proof. unfold JsMap.values. destruct m; simpl; split; congruence. Qed.

Lemma startNextRound_rooms roomId k rooms :
  (GameService.startNextRound roomId k rooms).2
  = <[roomId := advanced k (room_at roomId rooms)]> rooms.
Proof.
  unfold GameService.startNextRound, advanced, nextPresenter.
  rewrite ensureRoom_rooms. set (room := room_at roomId rooms).
  destruct (JsMap.size (players room) =? 0) eqn:Hsize.
  - apply size_zero in Hsize. by rewrite Hsize.
  - destruct (JsMap.values (players room)) as [|first ps] eqn:Hps; simpl; [done|].
    by rewrite insert_insert_eq.
Qed.

(** The room under any id after a call is the room before it, updated by
    [on_room]. *)
Lemma room_at_step op roomId rooms :
  room_at roomId (step op rooms) = on_room op roomId (room_at roomId rooms).
Proof.
  destruct op; simpl;
    rewrite ?ensureRoom_step, ?addPlayer_rooms, ?appendShape_rooms,
      ?setCurrentWord_rooms, ?getRoomState_rooms, ?checkGuess_rooms,
      ?startNextRound_rooms, ?room_at_removePlayerFromAll;
    try done; rewrite room_at_insert;
    destruct (String.eqb_spec roomId roomId0) as [->|Hne]; done.
Qed.

Lemma room_at_empty roomId : room_at roomId ∅ = GameService.newRoom roomId.
Proof. by apply room_at_None. Qed.

(** A property of rooms that fresh rooms have and that every allowed call
    preserves holds of every room of every reachable registry. *)
Lemma reachable_by_ind_rooms (ok : Rooms -> Op -> Prop) (P : Room -> Prop) :
  (forall roomId, P (GameService.newRoom roomId)) ->
  (forall rooms op roomId,
      ok rooms op -> (forall roomId', P (room_at roomId' rooms)) ->
      P (on_room op roomId (room_at roomId rooms))) ->
  forall rooms, reachable_by ok rooms -> forall roomId, P (room_at roomId rooms).
Proof.
  intros Hnew Hstep rooms Hreach.
  induction Hreach as [|rooms op Hreach IH Hok]; intros roomId.
  - rewrite room_at_empty. apply Hnew.
  - rewrite room_at_step. by apply Hstep.
Qed.

Lemma run_snoc ops op rooms : run (ops ++ [op]) rooms = step op (run ops rooms).
Proof. unfold run. by rewrite fold_left_app. Qed.

(** Running a list of calls from the empty registry reaches its result
    when every call is allowed where it runs. *)
Lemma reachable_by_run (ok : Rooms -> Op -> Prop) (ops : list Op) :
  (forall (pre : list Op) op rest,
      ops = (pre ++ op :: rest)%list -> ok (run pre ∅) op) ->
  reachable_by ok (run ops ∅).
Proof.
  induction ops as [|op ops IH] using rev_ind; intros Hok.
  - constructor.
  - rewrite run_snoc. constructor.
    + apply IH. intros pre op' rest ->. apply (Hok pre op' (rest ++ [op])%list).
      by rewrite <- app_assoc.
    + apply (Hok ops op []). done.
Qed.

Lemma reachable_run ops : List.Forall drawn ops -> reachable (run ops ∅).
Proof.
  intros Hall. apply reachable_by_run. intros pre op rest ->.
  apply Forall_app in Hall as [_ Hall]. by inversion Hall.
Qed.

Lemma randomWord_drawn k :
  (k < List.length mockWords)%nat -> is_Some (GameService.randomWord k).
Proof. apply lookup_lt_is_Some_2. Qed.

(** ** Presenter and secret are set together *)

Lemma paired_newRoom roomId : paired (GameService.newRoom roomId).
Proof. unfold paired, is_set; simpl. split; intros [? [=]]. Qed.

Lemma paired_set_round w o room :
  is_Some w -> paired (set_round w (Some o) room).
Proof. intros Hw. unfold paired, is_set; simpl. split; eauto. Qed.

Lemma paired_on_room op roomId room :
  drawn op -> paired room -> paired (on_room op roomId room).
Proof.
  intros Hk Hroom.
  destruct op as [rid|rid sid nm k|sid|rid sh|rid|rid w o|rid sid g|rid k];
    simpl in *; try done;
    try (destruct (String.eqb roomId rid); [|done]).
  - unfold joined. simpl. destruct (negb _); [|done].
    by apply paired_set_round, randomWord_drawn.
  - unfold GameService.removePlayer. by destruct (JsMap.has _ _).
  - done.
  - by apply paired_set_round.
  - unfold guessed. by destruct (_ && _).
  - unfold advanced. destruct (nextPresenter room); [|done].
    by apply (paired_set_round _ _ room), randomWord_drawn.
Qed.

(** C1.  In every room of every registry that a sequence of service calls
    can build, [roundOwner] is set if and only if [currentWord] is set. *)
Theorem roundOwner_set_iff_currentWord_set rooms :
  reachable rooms ->
  forall roomId room,
    rooms !! roomId = Some room ->
    is_set (roundOwner room) <-> is_set (currentWord room).
Proof.
  intros Hreach roomId room Hroom.
  rewrite <- (room_at_Some _ _ _ Hroom).
  clear Hroom. revert roomId.
  apply (reachable_by_ind_rooms (fun _ op => drawn op) paired); [| |done].
  - apply paired_newRoom.
  - intros rooms' op roomId Hok IH. by apply paired_on_room.
Qed.

Lemma game_trace_drawn : List.Forall drawn game_trace.
Proof. repeat constructor; simpl; lia. Qed.

Lemma roundOwner_set_iff_currentWord_set_witness :
  is_set (roundOwner (room_at "r1" (run game_trace ∅)))
  <-> is_set (currentWord (room_at "r1" (run game_trace ∅))).
Proof.
  apply (roundOwner_set_iff_currentWord_set (run game_trace ∅)
           (reachable_run _ game_trace_drawn) "r1").
  vm_compute. reflexivity.
Defined.

(** ** [ensureRoom] *)

(** C9.  [ensureRoom] is total; on an unseen id it registers a room with
    no players, no strokes, no presenter and no secret; the room it
    returns is the one stored under the id; on a known id the registry is
    left as it was; and a second call returns the same room and the same
    registry as the first. *)
Theorem ensureRoom_idempotent roomId rooms :
  let first := GameService.ensureRoom roomId rooms in
  (rooms !! roomId = None ->
     first.1 = mkRoom roomId [] [] None None
     /\ forall other, other <> roomId -> first.2 !! other = rooms !! other)
  /\ (forall room, rooms !! roomId = Some room -> first = (room, rooms))
  /\ first.2 !! roomId = Some first.1
  /\ GameService.ensureRoom roomId first.2 = first
  /\ (GameService.ensureRoom roomId first.2).2 = first.2.
Proof.
  simpl. unfold GameService.ensureRoom.
  destruct (rooms !! roomId) as [room|] eqn:Hroom; simpl.
  - rewrite Hroom. repeat split; try done. by intros room' [= ->].
  - rewrite lookup_insert_eq. repeat split; try done.
    intros other Hne. by rewrite lookup_insert_ne.
Qed.

(** ** [checkGuess] *)

Lemma checkGuess_result roomId socketId guess rooms :
  (GameService.checkGuess roomId socketId guess rooms).1
  = if matches (room_at roomId rooms) guess
    then match JsMap.get socketId (players (room_at roomId rooms)) with
         | Some player => Right (Some (name player)) (score player + 10)
         | None => Right None 0
         end
    else Wrong.
Proof.
  unfold GameService.checkGuess, matches, normalize.
  rewrite ensureRoom_rooms. set (room := room_at roomId rooms).
  destruct (JsString.truthy (currentWord room)); simpl; [|done].
  destruct (String.eqb _ _); simpl; [|done].
  by destruct (JsMap.get socketId (players room)).
Qed.

Lemma truthy_Some word : JsString.truthy (Some word) = true <-> word <> "".
Proof.
  simpl. destruct (String.eqb_spec word ""); simpl; split; congruence.
Qed.

Lemma matches_Some room word guess :
  currentWord room = Some word -> word <> "" ->
  matches room guess = true <-> normalize word = normalize guess.
Proof.
  intros Hw Hne. unfold matches. rewrite Hw. simpl.
  apply truthy_Some in Hne. simpl in Hne. rewrite Hne. simpl.
  apply String.eqb_eq.
Qed.




Lemma checkGuess_outsider roomId socketId guess rooms room word :
  rooms !! roomId = Some room ->
  currentWord room = Some word -> word <> "" ->
  JsMap.has socketId (players room) = false ->
  normalize word = normalize guess ->
  GameService.checkGuess roomId socketId guess rooms = (Right None 0, rooms).
Proof.
  intros Hroom Hword Hne Hhas Heq.
  rewrite (surjective_pairing (GameService.checkGuess _ _ _ _)).
  rewrite checkGuess_result, checkGuess_rooms, (room_at_Some _ _ _ Hroom).
  apply (matches_Some room word guess Hword Hne) in Heq.
  unfold guessed. rewrite Heq, Hhas. simpl.
  unfold JsMap.has in Hhas.
  destruct (JsMap.get socketId (players room)); [done|].
  by rewrite insert_id.
Qed.

(** C10.  In a room with a secret, a matching guess sent under a socket id
    that is not in [players] returns [{ correct: true, playerName:
    undefined, score: 0 }] and leaves the registry, hence every score, as it
    was. *)
Theorem checkGuess_non_member roomId socketId guess rooms room word :
  rooms !! roomId = Some room ->
  currentWord room = Some word -> word <> "" ->
  JsMap.has socketId (players room) = false ->
  normalize word = normalize guess ->
  GameService.checkGuess roomId socketId guess rooms = (Right None 0, rooms).
Proof. apply checkGuess_outsider. Qed.

Lemma checkGuess_non_member_witness :
  GameService.checkGuess "r" "X" " APPLE" apple_rooms = (Right None 0, apple_rooms).
Proof.
  apply (checkGuess_non_member "r" "X" " APPLE" apple_rooms
           (mkRoom "r" [("P", mkPlayer "P" "pat" 0); ("G", mkPlayer "G" "gil" 0)]
              [] (Some "Apple ") (Some "P"))
           "Apple ").
  - vm_compute. reflexivity.
  - reflexivity.
  - discriminate.
  - reflexivity.
  - vm_compute. reflexivity.
Defined.

(** ** Round robin *)

Lemma findIndex_range owner ps :
  -1 <= GameService.findIndex owner ps < Z.of_nat (List.length ps).
Proof.
  induction ps as [|p ps IH]; simpl; [lia|].
  destruct (bool_decide _); [lia|].
  destruct (Z.ltb_spec (GameService.findIndex owner ps) 0); lia.
Qed.

Lemma findIndex_absent owner ps :
  (forall p, In p ps -> Some (socketId p) <> owner) ->
  GameService.findIndex owner ps = -1.
Proof.
  induction ps as [|p ps IH]; simpl; intros Hno; [done|].
  rewrite bool_decide_eq_false_2 by (apply Hno; by left).
  rewrite IH by (intros q Hq; apply Hno; by right). done.
Qed.

(** The index found is the position of the player that carries the id,
    when ids do not repeat. *)
Lemma findIndex_at owner ps (i : nat) p :
  NoDup (List.map socketId ps) ->
  ps !! i = Some p -> Some (socketId p) = owner ->
  GameService.findIndex owner ps = Z.of_nat i.
Proof.
  revert i. induction ps as [|q ps IH]; intros i Hnd Hi Hp; [done|].
  simpl in *. apply NoDup_cons in Hnd as [Hq Hnd].
  destruct i as [|i]; simpl in Hi.
  - injection Hi as ->. by rewrite bool_decide_eq_true_2.
  - rewrite bool_decide_eq_false_2.
    + rewrite (IH i Hnd Hi Hp).
      destruct (Z.ltb_spec (Z.of_nat i) 0); lia.
    + intros Hq'. apply Hq. rewrite <- Hp in Hq'. injection Hq' as ->.
      apply list_elem_of_In, in_map, list_elem_of_In.
      by apply list_elem_of_lookup_2 with i.
Qed.

Lemma nextPresenterIndex_range owner ps :
  ps <> [] ->
  0 <= GameService.nextPresenterIndex owner ps < Z.of_nat (List.length ps).
Proof.
  intros Hne. unfold GameService.nextPresenterIndex.
  pose proof (findIndex_range owner ps) as Hr.
  assert (0 < Z.of_nat (List.length ps)) by (destruct ps; simpl; [done | lia]).
  rewrite Z.rem_mod_nonneg by lia. apply Z.mod_pos_bound. lia.
Qed.

Lemma nextPresenter_lookup room :
  nextPresenter room
  = JsMap.values (players room)
      !! Z.to_nat (GameService.nextPresenterIndex (roundOwner room)
                     (JsMap.values (players room))).
Proof.
  unfold nextPresenter.
  destruct (JsMap.values (players room)) as [|first ps] eqn:Hps; [done|].
  rewrite nth_lookup.
  pose proof (nextPresenterIndex_range (roundOwner room) (first :: ps)) as Hr.
  destruct (lookup_lt_is_Some_2 (first :: ps)
              (Z.to_nat (GameService.nextPresenterIndex (roundOwner room) (first :: ps))))
    as [p Hp].
  - specialize (Hr ltac:(done)). lia.
  - by rewrite Hp.
Qed.

Lemma startNextRound_result roomId k rooms :
  (GameService.startNextRound roomId k rooms).1
  = (fun p => (p, GameService.randomWord k)) <$> nextPresenter (room_at roomId rooms).
Proof.
  unfold GameService.startNextRound, nextPresenter.
  rewrite ensureRoom_rooms. set (room := room_at roomId rooms).
  destruct (JsMap.size (players room) =? 0) eqn:Hsize.
  - apply size_zero in Hsize. by rewrite Hsize.
  - by destruct (JsMap.values (players room)) as [|first ps] eqn:Hps.
Qed.

(** ** The player map of a reachable room *)

Lemma keys_set {V} k (v : V) m :
  JsMap.keys (JsMap.set k v m)
  = if JsMap.has k m then JsMap.keys m else (JsMap.keys m ++ [k])%list.
Proof.
  unfold JsMap.keys, JsMap.has. induction m as [|[k' v'] m IH]; simpl; [done|].
  destruct (String.eqb_spec k k') as [->|Hne]; simpl; [done|].
  rewrite IH. by destruct (JsMap.get k m).
Qed.

Lemma distinct_keys_set {V} k (v : V) m :
  NoDup (JsMap.keys m) -> NoDup (JsMap.keys (JsMap.set k v m)).
Proof.
  intros Hnd. rewrite keys_set. destruct (JsMap.has k m) eqn:Hhas; [done|].
  apply NoDup_app. split; [done|]. split; [|apply NoDup_singleton].
  intros x Hx ->%list_elem_of_singleton.
  apply list_elem_of_In, has_keys in Hx. congruence.
Qed.

Lemma keys_remove {V} k (m : JsMap.t V) :
  JsMap.keys (JsMap.remove k m)
  = List.filter (fun k' => negb (String.eqb k k')) (JsMap.keys m).
Proof.
  unfold JsMap.keys, JsMap.remove. induction m as [|[k' v'] m IH]; simpl; [done|].
  destruct (String.eqb k k'); simpl; by rewrite IH.
Qed.

Lemma distinct_keys_remove {V} k (m : JsMap.t V) :
  NoDup (JsMap.keys m) -> NoDup (JsMap.keys (JsMap.remove k m)).
Proof.
  intros Hnd. rewrite keys_remove.
  apply NoDup_ListNoDup, List.NoDup_filter, NoDup_ListNoDup, Hnd.
Qed.

Lemma keyed_set sid nm sc (m : JsMap.t Player) :
  List.Forall (fun kv => socketId (snd kv) = fst kv) m ->
  List.Forall (fun kv => socketId (snd kv) = fst kv)
    (JsMap.set sid (mkPlayer sid nm sc) m).
Proof.
  induction 1 as [|[k p] m Hkp Hm IH]; simpl.
  - by repeat constructor.
  - destruct (String.eqb sid k); constructor; done.
Qed.

Lemma keyed_remove sid (m : JsMap.t Player) :
  List.Forall (fun kv => socketId (snd kv) = fst kv) m ->
  List.Forall (fun kv => socketId (snd kv) = fst kv) (JsMap.remove sid m).
Proof.
  intros Hm. unfold JsMap.remove. apply List.Forall_forall.
  intros kv [Hin _]%List.filter_In. by apply (proj1 (List.Forall_forall _ _) Hm).
Qed.

Lemma keyed_mutate n sid (m : JsMap.t Player) :
  List.Forall (fun kv => socketId (snd kv) = fst kv) m ->
  List.Forall (fun kv => socketId (snd kv) = fst kv)
    (JsMap.mutate (GameService.addScore n) sid m).
Proof.
  induction 1 as [|[k p] m Hkp Hm IH]; simpl; [constructor|].
  destruct (String.eqb sid k); constructor; done.
Qed.

Lemma well_keyed_on_room op roomId room :
  distinct_keys room /\ keyed room ->
  distinct_keys (on_room op roomId room) /\ keyed (on_room op roomId room).
Proof.
  intros [Hnd Hk]. unfold distinct_keys, keyed in *.
  destruct op as [rid|rid sid nm k|sid|rid sh|rid|rid w o|rid sid g|rid k];
    simpl; try done;
    try (destruct (String.eqb roomId rid); [|done]).
  - unfold joined. simpl. destruct (negb _); simpl;
      (split; [by apply distinct_keys_set | by apply keyed_set]).
  - unfold GameService.removePlayer. destruct (JsMap.has _ _); [|done]. simpl.
    split; [by apply distinct_keys_remove | by apply keyed_remove].
  - done.
  - done.
  - unfold guessed. destruct (_ && _); [|done]. simpl.
    split; [by rewrite keys_mutate | by apply keyed_mutate].
  - unfold advanced. by destruct (nextPresenter room).
Qed.

Lemma reachable_well_keyed ok rooms roomId :
  reachable_by ok rooms ->
  distinct_keys (room_at roomId rooms) /\ keyed (room_at roomId rooms).
Proof.
  intros Hreach. revert roomId.
  apply (reachable_by_ind_rooms ok
           (fun room => distinct_keys room /\ keyed room)); [| |done].
  - intros roomId. split; [apply NoDup_nil_2 | constructor].
  - intros rooms' op roomId _ IH. by apply well_keyed_on_room.
Qed.

Lemma keyed_socketIds room :
  keyed room ->
  List.map socketId (JsMap.values (players room)) = JsMap.keys (players room).
Proof.
  unfold keyed, JsMap.values, JsMap.keys.
  induction 1 as [|[k p] m Hkp Hm IH]; simpl in *; [done|]. by rewrite Hkp, IH.
Qed.

Lemma keyed_value_member room p :
  keyed room -> In p (JsMap.values (players room)) -> member (socketId p) room.
Proof.
  intros Hk Hp. apply has_keys. rewrite <- (keyed_socketIds room Hk).
  by apply in_map.
Qed.

Lemma abc_drawn :
  List.Forall drawn
    [ AddPlayer "r" "A" "a" 0; AddPlayer "r" "B" "b" 0; AddPlayer "r" "C" "c" 0 ].
Proof. repeat constructor; simpl; lia. Qed.

Lemma next_index (i n : nat) :
  (i < n)%nat ->
  Z.to_nat (Z.rem (Z.of_nat i + 1) (Z.of_nat n)) = ((i + 1) mod n)%nat.
Proof.
  intros Hi. rewrite Z.rem_mod_nonneg by lia.
  replace (Z.of_nat i + 1) with (Z.of_nat (i + 1)) by lia.
  rewrite <- Nat2Z.inj_mod. apply Nat2Z.id.
Qed.

(** C3.  [startNextRound] returns [null] exactly when the room has no
    player.  Otherwise the next presenter is the player at index
    [(i + 1) mod n] of the player list, [i] being the index of the current
    presenter; a presenter who is no longer in the list gives the player
    at index 0; a sole player presents again.  In join order [A, B, C]:
    after [B] comes [C], after [C] comes [A], and when presenter [B] has
    left, [A]. *)
Theorem startNextRound_round_robin roomId k rooms :
  reachable rooms ->
  let room := room_at roomId rooms in
  let ps := JsMap.values (players room) in
  let next : option Player :=
    fst <$> (GameService.startNextRound roomId k rooms).1 in
  ((GameService.startNextRound roomId k rooms).1 = None
   <-> JsMap.size (players room) = 0)
  /\ (forall (i : nat) p,
        ps !! i = Some p -> roundOwner room = Some (socketId p) ->
        next = ps !! ((i + 1) mod List.length ps)%nat)
  /\ ((forall p, In p ps -> roundOwner room <> Some (socketId p)) ->
      next = ps !! 0%nat)
  /\ (forall p, ps = [p] -> next = Some p)
  /\ roundOwner (room_at roomId (GameService.startNextRound roomId k rooms).2)
     = match next with
       | Some p => Some (socketId p)
       | None => roundOwner room
       end
  /\ fst <$> (GameService.startNextRound "r" k abc_presenter_B).1
     = Some (mkPlayer "C" "c" 0)
  /\ fst <$> (GameService.startNextRound "r" k abc_presenter_C).1
     = Some (mkPlayer "A" "a" 0)
  /\ fst <$> (GameService.startNextRound "r" k abc_B_left).1
     = Some (mkPlayer "A" "a" 0).
Proof.
  intros Hreach. simpl.
  rewrite !startNextRound_result, startNextRound_rooms.
  rewrite room_at_insert, String.eqb_refl.
  set (room := room_at roomId rooms).
  destruct (reachable_well_keyed _ rooms roomId Hreach) as [Hnd Hk].
  fold room in Hnd, Hk.
  assert (Hnext : forall r : Room,
    fst <$> ((fun p => (p, GameService.randomWord k)) <$> nextPresenter r)
    = nextPresenter r) by (intros r; by destruct (nextPresenter r)).
  rewrite !Hnext.
  set (ps := JsMap.values (players room)).
  assert (Hids : NoDup (List.map socketId ps)).
  { unfold ps. rewrite keyed_socketIds by done. exact Hnd. }
  repeat split.
  - intros Hnone. apply fmap_None in Hnone. unfold nextPresenter in Hnone.
    fold ps in Hnone. destruct ps eqn:Hps; [|done].
    apply values_nil in Hps. by rewrite Hps.
  - intros Hsize. unfold nextPresenter. fold ps.
    assert (players room = []) as Hnil by (by apply size_zero, Z.eqb_eq).
    unfold ps. by rewrite Hnil.
  - intros i p Hi Hp. rewrite (nextPresenter_lookup room).
    unfold GameService.nextPresenterIndex. fold ps.
    rewrite (findIndex_at _ ps i p Hids Hi (eq_sym Hp)).
    rewrite next_index; [done|]. by apply lookup_lt_Some with p.
  - intros Habsent. rewrite (nextPresenter_lookup room).
    unfold GameService.nextPresenterIndex. fold ps.
    rewrite findIndex_absent; [|intros p Hp Heq; by apply (Habsent p)].
    reflexivity.
  - intros p Hp. rewrite (nextPresenter_lookup room). fold ps.
    rewrite Hp. unfold GameService.nextPresenterIndex. simpl.
    destruct (bool_decide _); simpl; reflexivity.
  - unfold advanced.
    by destruct (nextPresenter room).
Qed.

Lemma startNextRound_round_robin_witness :
  (GameService.startNextRound "r" 1 abc_rooms).1 = None
  <-> JsMap.size (players (room_at "r" abc_rooms)) = 0.
Proof.
  exact (proj1 (startNextRound_round_robin "r" 1 abc_rooms
                  (reachable_run _ abc_drawn))).
Defined.

(** ** The presenter and the player map *)

Lemma has_set {V} k k' (v : V) m :
  JsMap.has k' (JsMap.set k v m) = String.eqb k' k || JsMap.has k' m.
Proof.
  unfold JsMap.has. destruct (String.eqb_spec k' k) as [->|Hne]; simpl.
  - by rewrite get_set_eq.
  - by rewrite get_set_ne.
Qed.

Lemma has_remove_ne {V} k k' (m : JsMap.t V) :
  k <> k' -> JsMap.has k' (JsMap.remove k m) = JsMap.has k' m.
Proof. intros Hne. unfold JsMap.has. by rewrite get_remove_ne. Qed.

Lemma has_mutate {V} (f : V -> V) k k' m :
  JsMap.has k' (JsMap.mutate f k m) = JsMap.has k' m.
Proof.
  unfold JsMap.has. destruct (String.eqb_spec k k') as [->|Hne].
  - rewrite get_mutate_eq. by destruct (JsMap.get k' m).
  - by rewrite get_mutate_ne.
Qed.

Lemma nextPresenter_In room p :
  nextPresenter room = Some p -> In p (JsMap.values (players room)).
Proof.
  rewrite nextPresenter_lookup. intros Hp.
  apply list_elem_of_lookup_2 in Hp. by apply list_elem_of_In.
Qed.

Lemma presenter_member_on_room rooms op roomId :
  keeps_presenter rooms op ->
  keyed (room_at roomId rooms) ->
  presenter_member (room_at roomId rooms) ->
  presenter_member (on_room op roomId (room_at roomId rooms)).
Proof.
  intros Hok Hk Hroom. set (room := room_at roomId rooms) in *.
  unfold presenter_member, member in *.
  destruct op as [rid|rid sid nm k|sid|rid sh|rid|rid w o|rid sid g|rid k];
    simpl in *; try done;
    try (destruct (String.eqb_spec roomId rid) as [->|Hne]; [|done]).
  - unfold joined. simpl. destruct (negb _); simpl; intros owner Howner.
    + injection Howner as <-. by rewrite has_set, String.eqb_refl.
    + rewrite has_set, (Hroom owner Howner). by destruct (String.eqb owner sid).
  - unfold GameService.removePlayer. destruct (JsMap.has sid _); [|done].
    simpl. intros owner Howner. rewrite has_remove_ne; [by apply Hroom|].
    intros ->. by apply (Hok roomId).
  - exact Hroom.
  - simpl. intros owner [= <-]. exact Hok.
  - unfold guessed. destruct (_ && _); [|done]. simpl.
    intros owner Howner. rewrite has_mutate. by apply Hroom.
  - unfold advanced. destruct (nextPresenter room) as [p|] eqn:Hp; [|done].
    simpl. intros owner [= <-].
    by apply (keyed_value_member room), nextPresenter_In.
Qed.

(** C4, as the code has it.  Along every sequence of calls that never
    removes the current presenter of a room and never names a non-member
    as owner through [setCurrentWord], the presenter of each room, if
    set, is a key of the room's player map. *)
Theorem presenter_is_member rooms :
  reachable_by (fun rooms op => drawn op /\ keeps_presenter rooms op) rooms ->
  forall roomId room,
    rooms !! roomId = Some room ->
    forall owner,
      roundOwner room = Some owner -> JsMap.has owner (players room) = true.
Proof.
  intros Hreach roomId room Hroom.
  rewrite <- (room_at_Some _ _ _ Hroom). clear Hroom.
  assert (forall roomId,
    (distinct_keys (room_at roomId rooms) /\ keyed (room_at roomId rooms))
    /\ presenter_member (room_at roomId rooms)) as Hinv;
    [|intros owner Howner; by apply (proj2 (Hinv roomId))].
  apply (reachable_by_ind_rooms
           (fun rooms op => drawn op /\ keeps_presenter rooms op)
           (fun room => (distinct_keys room /\ keyed room)
                        /\ presenter_member room)); [| |done].
  - intros rid. repeat split; [apply NoDup_nil_2 | constructor | by intros owner].
  - intros rooms' op rid [_ Hok] IH. split.
    + apply well_keyed_on_room, IH.
    + apply presenter_member_on_room; [done | apply IH | apply IH].
Qed.

(** C4, as stated, fails: when the only player, who presents, leaves, the
    room keeps [roundOwner = "A"] over an empty player map. *)
Lemma presenter_left_not_member :
  ~ (forall rooms,
       reachable rooms ->
       forall roomId room,
         rooms !! roomId = Some room ->
         forall owner,
           roundOwner room = Some owner ->
           JsMap.has owner (players room) = true).
Proof.
  intros Hall.
  assert (Hreach : reachable presenter_left).
  { apply reachable_run. repeat constructor; simpl; lia. }
  specialize (Hall presenter_left Hreach "r1"
                (mkRoom "r1" [] [] (Some "사과") (Some "A"))).
  specialize (Hall ltac:(vm_compute; reflexivity) "A" eq_refl).
  discriminate Hall.
Qed.

(** [setCurrentWord] stores whatever owner it is given: the second way in
    which a presenter can be outside the player map. *)
Lemma setCurrentWord_any_owner roomId word owner rooms :
  roundOwner (room_at roomId (GameService.setCurrentWord roomId word owner rooms))
  = Some owner
  /\ players (room_at roomId (GameService.setCurrentWord roomId word owner rooms))
     = players (room_at roomId rooms).
Proof.
  rewrite setCurrentWord_rooms, room_at_insert, String.eqb_refl. done.
Qed.

Lemma member_rooms_reachable :
  reachable_by (fun rooms op => drawn op /\ keeps_presenter rooms op) member_rooms.
Proof.
  unfold member_rooms.
  apply reachable_step; [apply reachable_step; [apply reachable_step;
    [apply reachable_step; [apply reachable_step; [apply reachable_init|]|]|]|]|];
    (split; [simpl; try lia; exact I|]); try exact I.
  - intros roomId.
    replace (step _ _) with (<["r1" := mkRoom "r1"
        [("A", mkPlayer "A" "alice" 0); ("B", mkPlayer "B" "bob" 0)]
        [] (Some "컴퓨터") (Some "B")]> (∅ : Rooms))
      by (vm_compute; reflexivity).
    rewrite room_at_insert. destruct (String.eqb roomId "r1"); [done|].
    by rewrite room_at_empty.
  - vm_compute. reflexivity.
Qed.

Lemma presenter_is_member_witness :
  JsMap.has "B" (players (mkRoom "r1" [("B", mkPlayer "B" "bob" 0)] []
                            (Some "Apple") (Some "B"))) = true.
Proof.
  apply (presenter_is_member member_rooms member_rooms_reachable "r1"
           (mkRoom "r1" [("B", mkPlayer "B" "bob" 0)] [] (Some "Apple") (Some "B"))).
  - vm_compute. reflexivity.
  - reflexivity.
Defined.

(** ** Scores *)

(** C5, as stated, fails: [B] has scored 10 in room [r1]; a second
    [addPlayer] under the same socket id stores a fresh player object
    with score 0. *)
Lemma rejoin_resets_score :
  ~ (forall rooms,
       reachable rooms ->
       forall op,
         drawn op ->
         forall roomId sid p p',
           JsMap.get sid (players (room_at roomId rooms)) = Some p ->
           JsMap.get sid (players (room_at roomId (step op rooms))) = Some p' ->
           score p <= score p').
Proof.
  intros Hall.
  assert (Hreach : reachable scored_rooms).
  { apply reachable_run. repeat constructor; simpl; lia. }
  specialize (Hall scored_rooms Hreach (AddPlayer "r1" "B" "bob" 0)
                ltac:(simpl; lia) "r1" "B"
                (mkPlayer "B" "bob" 10) (mkPlayer "B" "bob" 0)
                ltac:(vm_compute; reflexivity) ltac:(vm_compute; reflexivity)).
  simpl in Hall. lia.
Qed.

(** C5, as the code has it.  A player who is in a room before and after
    a call keeps the score or gains exactly 10, unless the call is
    [addPlayer] for that room and that socket id; such a call stores a
    new player object whose score is 0. *)
Theorem score_never_decreases op roomId sid rooms p p' :
  JsMap.get sid (players (room_at roomId rooms)) = Some p ->
  JsMap.get sid (players (room_at roomId (step op rooms))) = Some p' ->
  ((forall nm k, op <> AddPlayer roomId sid nm k) ->
   score p <= score p' /\ (score p' = score p \/ score p' = score p + 10))
  /\ (forall nm k, op = AddPlayer roomId sid nm k -> p' = mkPlayer sid nm 0).
Proof.
  rewrite room_at_step. set (room := room_at roomId rooms).
  intros Hp Hp'.
  assert (Hsame : JsMap.get sid (players room) = Some p' ->
                  score p <= score p' /\
                  (score p' = score p \/ score p' = score p + 10)).
  { rewrite Hp. intros [= ->]. lia. }
  split.
  - intros Hop.
    destruct op as [rid|rid sid' nm k|sid'|rid sh|rid|rid w o|rid sid' g|rid k];
      simpl in Hp'; try (by apply Hsame);
      try (destruct (String.eqb_spec roomId rid) as [->|Hne]; [|by apply Hsame]);
      simpl in Hp'; try (by apply Hsame).
    + apply Hsame. rewrite <- Hp'. unfold joined. simpl.
      assert (sid' <> sid) as Hsid by (intros ->; by apply (Hop nm k)).
      destruct (negb _); simpl; by rewrite get_set_ne.
    + unfold GameService.removePlayer in Hp'.
      destruct (JsMap.has sid' (players room)); [|by apply Hsame].
      simpl in Hp'. destruct (String.eqb_spec sid' sid) as [->|Hsid].
      * by rewrite get_remove_eq in Hp'.
      * rewrite get_remove_ne in Hp' by done. by apply Hsame.
    + unfold guessed in Hp'. destruct (_ && _); [|by apply Hsame].
      simpl in Hp'. destruct (String.eqb_spec sid' sid) as [->|Hsid].
      * rewrite get_mutate_eq, Hp in Hp'. injection Hp' as <-. simpl. lia.
      * rewrite get_mutate_ne in Hp' by done. by apply Hsame.
    + unfold advanced in Hp'. destruct (nextPresenter room); by apply Hsame.
  - intros nm k ->. simpl in Hp'. rewrite String.eqb_refl in Hp'.
    unfold joined in Hp'. simpl in Hp'.
    destruct (negb _); simpl in Hp'; rewrite get_set_eq in Hp'; congruence.
Qed.

Lemma score_never_decreases_witness :
  10 <= 20 /\ (20 = 10 \/ 20 = 10 + 10).
Proof.
  apply (proj1 (score_never_decreases (CheckGuess "r1" "B" "사과") "r1" "B"
                  scored_rooms (mkPlayer "B" "bob" 10) (mkPlayer "B" "bob" 20)
                  ltac:(vm_compute; reflexivity) ltac:(vm_compute; reflexivity))).
  intros nm k. discriminate.
Defined.

(** ** The stroke log *)

Lemma startNextRound_null roomId k rooms :
  (GameService.startNextRound roomId k rooms).1 = None
  <-> nextPresenter (room_at roomId rooms) = None.
Proof. rewrite startNextRound_result. apply fmap_None. Qed.

(** C8.  The stroke log of a room after a call: emptied by
    [startNextRound] on that room when it does not return [null], longer
    by the one appended record after [appendShape] on that room, and the
    same list after every other call, including [startNextRound] that
    returns [null] and calls on other rooms. *)
Theorem strokes_cleared_only_by_round_start op roomId rooms :
  let before := shapes (room_at roomId rooms) in
  let after := shapes (room_at roomId (step op rooms)) in
  match op with
  | StartNextRound roomId' k =>
      if String.eqb roomId roomId' then
        match (GameService.startNextRound roomId' k rooms).1 with
        | Some _ => after = []
        | None => after = before
        end
      else after = before
  | AppendShape roomId' shape =>
      if String.eqb roomId roomId' then after = (before ++ [shape])%list
      else after = before
  | EnsureRoom _ | AddPlayer _ _ _ _ | RemovePlayerFromAll _
  | GetRoomState _ | SetCurrentWord _ _ _ | CheckGuess _ _ _ => after = before
  end.
Proof.
  simpl. rewrite room_at_step. set (room := room_at roomId rooms).
  destruct op as [rid|rid sid nm k|sid|rid sh|rid|rid w o|rid sid g|rid k];
    simpl; try done;
    try (destruct (String.eqb_spec roomId rid) as [->|Hne]; [|done]).
  - unfold joined. simpl. by destruct (negb _).
  - unfold GameService.removePlayer. by destruct (JsMap.has _ _).
  - done.
  - done.
  - unfold guessed. by destruct (_ && _).
  - rewrite startNextRound_result. fold room. unfold advanced.
    by destruct (nextPresenter room).
Qed.

(** ** The gateway *)

Lemma getRoomState_eq roomId rooms :
  GameService.getRoomState roomId rooms
  = (mkRoomState (JsMap.values (players (room_at roomId rooms)))
       (shapes (room_at roomId rooms))
       (JsString.truthy (currentWord (room_at roomId rooms)))
       (roundOwner (room_at roomId rooms)),
     <[roomId := room_at roomId rooms]> rooms).
Proof.
  unfold GameService.getRoomState. rewrite ensureRoom_rooms.
  by destruct (JsString.truthy _).
Qed.

Lemma room_at_ensured roomId roomId' rooms :
  room_at roomId' (<[roomId := room_at roomId rooms]> rooms) = room_at roomId' rooms.
Proof.
  rewrite room_at_insert. by destruct (String.eqb_spec roomId' roomId) as [->|].
Qed.










Lemma find_absent owner ps :
  (forall p, In p ps -> Some (socketId p) <> owner) ->
  GameGateway.find owner ps = None.
Proof.
  unfold GameGateway.find. induction ps as [|p ps IH]; intros Hno; [done|].
  simpl. rewrite bool_decide_eq_false_2 by (apply Hno; by left).
  apply IH. intros q Hq. apply Hno. by right.
Qed.

(** The gateway's side of a matching guess from outside the room: the
    result and the end of the round are announced without a name, score 0,
    and the timer of the next round is armed. *)
Lemma onGuess_outsider_ends_round roomId socketId guess rooms room word :
  reachable rooms ->
  rooms !! roomId = Some room ->
  currentWord room = Some word -> word <> "" ->
  JsMap.has socketId (players room) = false ->
  normalize word = normalize guess ->
  let handled :=
    GameGateway.onGuess [("roomId", JsText roomId); ("guess", JsText guess)]
      socketId rooms in
  rooms_after handled = rooms
  /\ armed handled = [mkTimer roomId 3000]
  /\ emitted handled
     = [mkEmit (ToRoom roomId) (guessResult socketId None guess true (Some 0));
        mkEmit (ToRoom roomId) (roundEnded socketId None (Some 0))].
Proof.
  intros Hreach Hroom Hword Hne Hhas Heq.
  unfold GameGateway.onGuess. simpl.
  rewrite (checkGuess_outsider _ _ _ _ room word) by done.
  rewrite getRoomState_eq, (room_at_Some _ _ _ Hroom), insert_id by done. simpl.
  destruct (reachable_well_keyed _ rooms roomId Hreach) as [_ Hk].
  rewrite (room_at_Some _ _ _ Hroom) in Hk.
  rewrite find_absent; [done|].
  intros p Hp [= Hsid]. apply (keyed_value_member room p Hk) in Hp.
  unfold member in Hp. congruence.
Qed.

(** An empty string stored as secret counts as no secret in every test of
    the service, while the field itself is set. *)
Lemma empty_word_is_no_secret :
  let rooms := GameService.setCurrentWord "r" "" "P" ∅ in
  currentWord (room_at "r" rooms) = Some ""
  /\ roundOwner (room_at "r" rooms) = Some "P"
  /\ state_currentWord (GameService.getRoomState "r" rooms).1 = false
  /\ (GameService.checkGuess "r" "G" "" rooms).1 = Wrong.
Proof. vm_compute. done. Qed.

(** [setCurrentWord] on a fresh room names an owner who never joined. *)
Lemma setCurrentWord_non_member_owner :
  let rooms := step (SetCurrentWord "r" "Apple" "Z") ∅ in
  reachable rooms
  /\ roundOwner (room_at "r" rooms) = Some "Z"
  /\ JsMap.has "Z" (players (room_at "r" rooms)) = false.
Proof.
  simpl. split; [|vm_compute; done].
  apply (reachable_step _ ∅ (SetCurrentWord "r" "Apple" "Z")); [constructor|exact I].
Qed.

(** * Further properties of the service *)

Lemma room_at_run ops roomId rooms :
  room_at roomId (run ops rooms)
  = List.fold_left (fun room op => on_room op roomId room) ops
      (room_at roomId rooms).
Proof.
  revert rooms. induction ops as [|op ops IH]; intros rooms; [done|].
  simpl. change (run (op :: ops) rooms) with (run ops (step op rooms)).
  by rewrite IH, room_at_step.
Qed.

Lemma get_In {V} k (v : V) m : JsMap.get k m = Some v -> In (k, v) m.
Proof.
  induction m as [|[k' v'] m IH]; simpl; [done|].
  destruct (String.eqb_spec k k') as [->|Hne].
  - intros [= ->]. by left.
  - intros Hget. right. by apply IH.
Qed.

Lemma In_values {V} (v : V) m :
  In v (JsMap.values m) -> exists k, In (k, v) m.
Proof.
  unfold JsMap.values. intros ([k v'] & <- & Hin)%in_map_iff. by exists k.
Qed.

(** X1.  In every reachable registry, no two players of a room carry the
    same socket id, and the player object found under a socket id carries
    that id. *)
Theorem players_identified_by_socketId rooms :
  reachable rooms ->
  forall roomId room,
    rooms !! roomId = Some room ->
    NoDup (List.map socketId (JsMap.values (players room)))
    /\ forall sid p, JsMap.get sid (players room) = Some p -> socketId p = sid.
Proof.
  intros Hreach roomId room Hroom.
  destruct (reachable_well_keyed _ rooms roomId Hreach) as [Hnd Hk].
  rewrite (room_at_Some _ _ _ Hroom) in Hnd, Hk. split.
  - by rewrite keyed_socketIds.
  - intros sid p Hp%get_In.
    by apply (proj1 (List.Forall_forall _ _) Hk (sid, p)).
Qed.

Lemma scored_rooms_reachable : reachable scored_rooms.
Proof. apply reachable_run. repeat constructor; simpl; lia. Qed.

Lemma players_identified_by_socketId_witness :
  NoDup (List.map socketId
           [mkPlayer "A" "alice" 0; mkPlayer "B" "bob" 10])
  /\ forall sid p,
       JsMap.get sid [("A", mkPlayer "A" "alice" 0); ("B", mkPlayer "B" "bob" 10)]
       = Some p -> socketId p = sid.
Proof.
  apply (players_identified_by_socketId scored_rooms scored_rooms_reachable "r1"
           (mkRoom "r1" [("A", mkPlayer "A" "alice" 0); ("B", mkPlayer "B" "bob" 10)]
              [] (Some "사과") (Some "A"))).
  vm_compute. reflexivity.
Defined.

Lemma id_on_room op roomId room : id (on_room op roomId room) = id room.
Proof.
  destruct op as [rid|rid sid nm k|sid|rid sh|rid|rid w o|rid sid g|rid k];
    simpl; try done;
    try (destruct (String.eqb roomId rid); [|done]); simpl; try done.
  - unfold joined. simpl. by destruct (negb _).
  - unfold GameService.removePlayer. by destruct (JsMap.has _ _).
  - unfold guessed. by destruct (_ && _).
  - unfold advanced. by destruct (nextPresenter room).
Qed.

(** X2.  The room stored under a key of the registry carries that key as
    its [id], whatever calls were made. *)
Theorem room_id_is_its_key ok rooms :
  reachable_by ok rooms ->
  forall roomId room, rooms !! roomId = Some room -> id room = roomId.
Proof.
  induction 1 as [|rooms op Hreach IH Hok]; intros roomId room Hroom.
  - by rewrite lookup_empty in Hroom.
  - apply room_at_Some in Hroom. rewrite room_at_step in Hroom.
    rewrite <- Hroom, id_on_room.
    unfold room_at, GameService.ensureRoom.
    destruct (rooms !! roomId) as [room'|] eqn:Hroom'; simpl; [|done].
    by apply IH.
Qed.

Lemma room_id_is_its_key_witness :
  id (mkRoom "r1" [("B", mkPlayer "B" "bob" 0)] [] (Some "Apple") (Some "B")) = "r1".
Proof.
  apply (room_id_is_its_key _ member_rooms member_rooms_reachable "r1").
  vm_compute. reflexivity.
Defined.

Section PlayerFacts.
Variable P : Player -> Prop.

Lemma all_players_set sid p (m : JsMap.t Player) :
  P p -> List.Forall (fun kv => P (snd kv)) m ->
  List.Forall (fun kv => P (snd kv)) (JsMap.set sid p m).
Proof.
  intros Hp. induction 1 as [|[k q] m Hq Hm IH]; simpl.
  - by repeat constructor.
  - destruct (String.eqb sid k); constructor; done.
Qed.

Lemma all_players_remove sid (m : JsMap.t Player) :
  List.Forall (fun kv => P (snd kv)) m ->
  List.Forall (fun kv => P (snd kv)) (JsMap.remove sid m).
Proof.
  intros Hm. unfold JsMap.remove. apply List.Forall_forall.
  intros kv [Hin _]%List.filter_In. by apply (proj1 (List.Forall_forall _ _) Hm).
Qed.

Lemma all_players_mutate f sid (m : JsMap.t Player) :
  (forall p, P p -> P (f p)) ->
  List.Forall (fun kv => P (snd kv)) m ->
  List.Forall (fun kv => P (snd kv)) (JsMap.mutate f sid m).
Proof.
  intros Hf. induction 1 as [|[k q] m Hq Hm IH]; simpl; [constructor|].
  destruct (String.eqb sid k); constructor; simpl in *; auto.
Qed.

End PlayerFacts.

Lemma tens_addScore p : tens p -> tens (GameService.addScore 10 p).
Proof.
  unfold tens. simpl. intros [Hpos [q Hq]]. split; [lia|].
  exists (q + 1). lia.
Qed.

Lemma tens_on_room op roomId room :
  List.Forall (fun kv => tens (snd kv)) (players room) ->
  List.Forall (fun kv => tens (snd kv)) (players (on_room op roomId room)).
Proof.
  intros Hroom.
  destruct op as [rid|rid sid nm k|sid|rid sh|rid|rid w o|rid sid g|rid k];
    simpl; try done;
    try (destruct (String.eqb roomId rid); [|done]); simpl; try done.
  - assert (List.Forall (fun kv => tens (snd kv))
              (JsMap.set sid (mkPlayer sid nm 0) (players room))) as Hset.
    { apply all_players_set; [|done]. split; simpl; [lia | by exists 0]. }
    unfold joined. simpl. by destruct (negb _).
  - unfold GameService.removePlayer. destruct (JsMap.has _ _); [|done].
    simpl. by apply all_players_remove.
  - unfold guessed. destruct (_ && _); [|done]. simpl.
    apply all_players_mutate; [apply tens_addScore | done].
  - unfold advanced. by destruct (nextPresenter room).
Qed.

(** X3.  Whatever calls were made, every score in the registry is a
    non-negative multiple of 10. *)
Theorem scores_are_tens ok rooms :
  reachable_by ok rooms ->
  forall roomId room sid p,
    rooms !! roomId = Some room ->
    JsMap.get sid (players room) = Some p ->
    0 <= score p /\ (10 | score p).
Proof.
  intros Hreach roomId room sid p Hroom Hp%get_In.
  assert (List.Forall (fun kv => tens (snd kv)) (players (room_at roomId rooms)))
    as Hall.
  { apply (reachable_by_ind_rooms ok
             (fun room => List.Forall (fun kv => tens (snd kv)) (players room)));
      [by constructor | | done].
    intros rooms' op rid _ IH. apply tens_on_room, IH. }
  rewrite (room_at_Some _ _ _ Hroom) in Hall.
  by apply (proj1 (List.Forall_forall _ _) Hall (sid, p)).
Qed.

Lemma scores_are_tens_witness : 0 <= 10 /\ (10 | 10).
Proof.
  apply (scores_are_tens _ scored_rooms scored_rooms_reachable "r1"
           (mkRoom "r1" [("A", mkPlayer "A" "alice" 0); ("B", mkPlayer "B" "bob" 10)]
              [] (Some "사과") (Some "A"))
           "B" (mkPlayer "B" "bob" 10)).
  - vm_compute. reflexivity.
  - reflexivity.
Defined.

Lemma mockWords_not_empty word : In word mockWords -> word <> "".
Proof.
  unfold mockWords. simpl. intros H.
  repeat (destruct H as [<-|H]; [discriminate|]). destruct H.
Qed.

Lemma randomWord_In k word :
  GameService.randomWord k = Some word -> In word mockWords.
Proof.
  unfold GameService.randomWord. intros H%list_elem_of_lookup_2.
  by apply list_elem_of_In.
Qed.

Lemma secret_on_room op roomId room :
  from_gateway op ->
  (forall word, currentWord room = Some word -> In word mockWords) ->
  forall word,
    currentWord (on_room op roomId room) = Some word -> In word mockWords.
Proof.
  intros [_ Hop] Hroom.
  destruct op as [rid|rid sid nm k|sid|rid sh|rid|rid w o|rid sid g|rid k];
    simpl in *; try done;
    try (destruct (String.eqb roomId rid); [|done]); simpl; try done.
  - unfold joined. simpl. destruct (negb _); [|done]. simpl.
    intros word. apply randomWord_In.
  - unfold GameService.removePlayer. by destruct (JsMap.has _ _).
  - unfold guessed. by destruct (_ && _).
  - unfold advanced. destruct (nextPresenter room); [|done]. simpl.
    intros word. apply randomWord_In.
Qed.

(** X4.  As long as [setCurrentWord] is not called (the gateway never
    calls it), the secret of a room, when set, is one of [mockWords] and
    so is not the empty string: the flag of [getRoomState] is then true
    exactly when the field is set. *)
Theorem secret_is_a_mock_word rooms :
  played rooms ->
  forall roomId room word,
    rooms !! roomId = Some room ->
    currentWord room = Some word ->
    In word mockWords /\ word <> ""
    /\ state_currentWord (GameService.getRoomState roomId rooms).1 = true.
Proof.
  intros Hplayed roomId room word Hroom Hword.
  assert (In word mockWords) as Hin.
  { revert word Hword. rewrite <- (room_at_Some _ _ _ Hroom).
    apply (reachable_by_ind_rooms (fun _ op => from_gateway op)
             (fun room => forall word, currentWord room = Some word ->
                                       In word mockWords));
      [by intros rid w [=] | | exact Hplayed].
    intros rooms' op rid Hop IH. apply secret_on_room; [exact Hop | apply IH]. }
  pose proof (mockWords_not_empty word Hin) as Hne.
  repeat split; [done | done |].
  rewrite getRoomState_eq, (room_at_Some _ _ _ Hroom), Hword. simpl.
  by apply truthy_Some.
Qed.

Lemma scored_rooms_played : played scored_rooms.
Proof.
  apply reachable_by_run. intros pre op rest Heq.
  assert (In op [ AddPlayer "r1" "A" "alice" 0; AddPlayer "r1" "B" "bob" 3;
                  CheckGuess "r1" "B" " 사과 " ]) as Hin.
  { rewrite Heq. apply in_elt. }
  simpl in Hin. destruct Hin as [<-|[<-|[<-|[]]]]; split; simpl; try lia; exact I.
Qed.

Lemma secret_is_a_mock_word_witness :
  In "사과" mockWords /\ "사과" <> ""
  /\ state_currentWord (GameService.getRoomState "r1" scored_rooms).1 = true.
Proof.
  apply (secret_is_a_mock_word scored_rooms scored_rooms_played "r1"
           (mkRoom "r1" [("A", mkPlayer "A" "alice" 0); ("B", mkPlayer "B" "bob" 10)]
              [] (Some "사과") (Some "A"))
           "사과").
  - vm_compute. reflexivity.
  - reflexivity.
Defined.

Lemma step_addressed op roomId rooms :
  addressed op = Some roomId ->
  step op rooms = <[roomId := on_room op roomId (room_at roomId rooms)]> rooms.
Proof.
  destruct op as [rid|rid sid nm k|sid|rid sh|rid|rid w o|rid sid g|rid k];
    simpl; intros [= <-]; rewrite ?String.eqb_refl.
  - apply ensureRoom_step.
  - apply addPlayer_rooms.
  - apply appendShape_rooms.
  - apply getRoomState_rooms.
  - apply setCurrentWord_rooms.
  - apply checkGuess_rooms.
  - apply startNextRound_rooms.
Qed.

(** X5.  No call ever takes a room out of the registry: a call that names
    a room leaves the registry with the rooms it had plus that room, and
    [removePlayerFromAll] leaves it with exactly the rooms it had. *)
Theorem rooms_are_never_evicted op rooms :
  dom (step op rooms)
  = match addressed op with
    | Some roomId => {[roomId]} ∪ dom rooms
    | None => dom rooms
    end.
Proof.
  destruct (addressed op) as [roomId|] eqn:Hop.
  - rewrite (step_addressed op roomId rooms Hop). apply dom_insert_L.
  - destruct op; try discriminate Hop. simpl.
    unfold GameService.removePlayerFromAll. apply dom_fmap_L.
Qed.

(** X6.  A call that names a room changes nothing in any other room. *)
Theorem other_rooms_untouched op roomId roomId' rooms :
  addressed op = Some roomId ->
  roomId' <> roomId ->
  step op rooms !! roomId' = rooms !! roomId'.
Proof.
  intros Hop Hne. rewrite (step_addressed op roomId rooms Hop).
  by apply lookup_insert_ne.
Qed.

Lemma other_rooms_untouched_witness :
  step (StartNextRound "r2" 1) scored_rooms !! "r1" = scored_rooms !! "r1".
Proof.
  apply (other_rooms_untouched (StartNextRound "r2" 1) "r2" "r1" scored_rooms).
  - reflexivity.
  - discriminate.
Defined.

(** ** [addPlayer] *)

(** X7.  [addPlayer] makes the joining socket the presenter, with the word
    drawn from [mockWords], exactly when the room has no presenter (none
    set, or an empty id); otherwise presenter and secret stay as they
    were, also when that presenter has left the room.  The stroke log is
    never touched. *)
Theorem addPlayer_assigns_first_presenter roomId sid nm k rooms :
  let room := room_at roomId rooms in
  let room' := room_at roomId (GameService.addPlayer roomId sid nm k rooms) in
  (JsString.truthy (roundOwner room) = false ->
   roundOwner room' = Some sid /\ currentWord room' = mockWords !! k)
  /\ (JsString.truthy (roundOwner room) = true ->
      roundOwner room' = roundOwner room /\ currentWord room' = currentWord room)
  /\ shapes room' = shapes room
  /\ JsMap.get sid (players room') = Some (mkPlayer sid nm 0).
Proof.
  simpl. rewrite addPlayer_rooms, room_at_insert, String.eqb_refl.
  set (room := room_at roomId rooms). unfold joined. simpl.
  destruct (JsString.truthy (roundOwner room)); simpl;
    repeat split; try done; by rewrite get_set_eq.
Qed.

Lemma values_set_new {V} k (v : V) m :
  JsMap.has k m = false -> JsMap.set k v m = (m ++ [(k, v)])%list.
Proof.
  unfold JsMap.has. induction m as [|[k' v'] m IH]; simpl; [done|].
  destruct (String.eqb_spec k k') as [->|Hne]; [done|].
  intros Hget. by rewrite IH.
Qed.

(** X8.  [addPlayer] keeps the join order: a socket id that is new to the
    room goes to the end of the player list, a socket id that is already
    in the room keeps its place, and every other player object is left as
    it is. *)
Theorem addPlayer_keeps_join_order roomId sid nm k rooms :
  let room := room_at roomId rooms in
  let room' := room_at roomId (GameService.addPlayer roomId sid nm k rooms) in
  (JsMap.has sid (players room) = false ->
   JsMap.values (players room')
   = (JsMap.values (players room) ++ [mkPlayer sid nm 0])%list)
  /\ (JsMap.has sid (players room) = true ->
      JsMap.keys (players room') = JsMap.keys (players room))
  /\ (forall other, other <> sid ->
        JsMap.get other (players room') = JsMap.get other (players room)).
Proof.
  simpl. rewrite addPlayer_rooms, room_at_insert, String.eqb_refl.
  set (room := room_at roomId rooms).
  assert (players (joined sid nm k room)
          = JsMap.set sid (mkPlayer sid nm 0) (players room)) as ->.
  { unfold joined. simpl. by destruct (negb _). }
  repeat split.
  - intros Hnew. rewrite values_set_new by done.
    unfold JsMap.values. by rewrite map_app.
  - intros Hold. by rewrite keys_set, Hold.
  - intros other Hne. by apply get_set_ne.
Qed.

(** ** [removePlayerFromAll] *)

(** X9.  After [removePlayerFromAll] the socket id is in no room; in
    every room the other players keep their objects and their order, and
    stroke log, secret and presenter are as before, even when the removed
    player was the presenter.  A second call changes nothing. *)
Theorem removePlayerFromAll_removes_everywhere sid rooms :
  let rooms' := GameService.removePlayerFromAll sid rooms in
  (forall roomId,
     let room := room_at roomId rooms in
     let room' := room_at roomId rooms' in
     JsMap.has sid (players room') = false
     /\ (forall other, other <> sid ->
           JsMap.get other (players room') = JsMap.get other (players room))
     /\ JsMap.keys (players room')
        = List.filter (fun k => negb (String.eqb sid k)) (JsMap.keys (players room))
     /\ shapes room' = shapes room
     /\ currentWord room' = currentWord room
     /\ roundOwner room' = roundOwner room)
  /\ GameService.removePlayerFromAll sid rooms' = rooms'.
Proof.
  simpl. split.
  - intros roomId. rewrite room_at_removePlayerFromAll.
    set (room := room_at roomId rooms). unfold GameService.removePlayer.
    destruct (JsMap.has sid (players room)) eqn:Hhas; simpl.
    + repeat split.
      * unfold JsMap.has. by rewrite get_remove_eq.
      * intros other Hne. by apply get_remove_ne.
      * apply keys_remove.
    + repeat split; [done|].
      symmetry. apply forallb_filter_id, forallb_forall.
      intros k Hk%has_keys. destruct (String.eqb_spec sid k) as [->|]; [|done].
      congruence.
  - unfold GameService.removePlayerFromAll. rewrite <- map_fmap_compose.
    apply map_fmap_ext. intros roomId room _. simpl.
    unfold GameService.removePlayer.
    destruct (JsMap.has sid (players room)) eqn:Hhas; simpl.
    + unfold JsMap.has. by rewrite get_remove_eq.
    + by rewrite Hhas.
Qed.

(** ** [checkGuess] does not close the round *)

(** X10.  A correct guess leaves secret and presenter in place, so the
    same guess sent again is correct again and scores another 10: the
    second answer carries the first score plus 20. *)
Theorem correct_guess_can_be_repeated roomId sid guess rooms room word p :
  rooms !! roomId = Some room ->
  currentWord room = Some word -> word <> "" ->
  normalize word = normalize guess ->
  JsMap.get sid (players room) = Some p ->
  let once := GameService.checkGuess roomId sid guess rooms in
  let twice := GameService.checkGuess roomId sid guess once.2 in
  once.1 = Right (Some (name p)) (score p + 10)
  /\ currentWord (room_at roomId once.2) = Some word
  /\ roundOwner (room_at roomId once.2) = roundOwner room
  /\ twice.1 = Right (Some (name p)) (score p + 20).
Proof.
  intros Hroom Hword Hne Heq Hp. simpl.
  apply (matches_Some room word guess Hword Hne) in Heq.
  rewrite !checkGuess_result, checkGuess_rooms.
  rewrite room_at_insert, String.eqb_refl, (room_at_Some _ _ _ Hroom).
  assert (guessed sid guess room
          = set_players (JsMap.mutate (GameService.addScore 10) sid) room) as ->.
  { unfold guessed, JsMap.has. by rewrite Heq, Hp. }
  rewrite Heq, Hp. simpl.
  assert (matches (set_players (JsMap.mutate (GameService.addScore 10) sid) room)
            guess = true) as -> by exact Heq.
  rewrite get_mutate_eq, Hp. simpl.
  repeat split; try done. f_equal. lia.
Qed.

Lemma correct_guess_can_be_repeated_witness :
  (GameService.checkGuess "r" "G" "apple"
     (GameService.checkGuess "r" "G" "apple" apple_rooms).2).1
  = Right (Some "gil") (0 + 20).
Proof.
  apply (correct_guess_can_be_repeated "r" "G" "apple" apple_rooms
           (mkRoom "r" [("P", mkPlayer "P" "pat" 0); ("G", mkPlayer "G" "gil" 0)]
              [] (Some "Apple ") (Some "P"))
           "Apple " (mkPlayer "G" "gil" 0)).
  - vm_compute. reflexivity.
  - reflexivity.
  - discriminate.
  - vm_compute. reflexivity.
  - reflexivity.
Defined.

(** ** Rounds in sequence *)

Lemma advanced_players k room : players (advanced k room) = players room.
Proof. unfold advanced. by destruct (nextPresenter room). Qed.

Lemma advanced_owner k room (i : nat) p :
  NoDup (List.map socketId (JsMap.values (players room))) ->
  JsMap.values (players room) !! i = Some p ->
  roundOwner room = Some (socketId p) ->
  exists q,
    JsMap.values (players room)
      !! ((i + 1) mod List.length (JsMap.values (players room)))%nat = Some q
    /\ roundOwner (advanced k room) = Some (socketId q).
Proof.
  intros Hnd Hi Hp. set (ps := JsMap.values (players room)) in *.
  assert (nextPresenter room = ps !! ((i + 1) mod List.length ps)%nat) as Hnext.
  { rewrite nextPresenter_lookup. fold ps.
    unfold GameService.nextPresenterIndex.
    rewrite (findIndex_at _ ps i p Hnd Hi (eq_sym Hp)).
    rewrite next_index; [done|]. by apply lookup_lt_Some with p. }
  assert (i < List.length ps)%nat as Hlt by (by apply lookup_lt_Some with p).
  destruct (lookup_lt_is_Some_2 ps ((i + 1) mod List.length ps)%nat) as [q Hq].
  { apply Nat.mod_upper_bound. lia. }
  exists q. split; [done|]. unfold advanced. by rewrite Hnext, Hq.
Qed.

Lemma rounds_owner roomId ks : forall room (i : nat) p,
  NoDup (List.map socketId (JsMap.values (players room))) ->
  JsMap.values (players room) !! i = Some p ->
  roundOwner room = Some (socketId p) ->
  let room' :=
    List.fold_left (fun room op => on_room op roomId room) (rounds roomId ks) room in
  players room' = players room
  /\ roundOwner room'
     = socketId <$> JsMap.values (players room)
         !! ((i + List.length ks) mod List.length (JsMap.values (players room)))%nat.
Proof.
  induction ks as [|k ks IH]; intros room i p Hnd Hi Hp; simpl.
  - split; [done|]. rewrite Nat.add_0_r, Nat.mod_small.
    + by rewrite Hi.
    + by apply lookup_lt_Some with p.
  - rewrite String.eqb_refl.
    destruct (advanced_owner k room i p Hnd Hi Hp) as (q & Hq & Howner).
    pose proof (advanced_players k room) as Hsame.
    specialize (IH (advanced k room)
                  ((i + 1) mod List.length (JsMap.values (players room)))%nat q).
    rewrite Hsame in IH. specialize (IH Hnd Hq Howner). simpl in IH.
    destruct IH as [-> ->]. split; [done|].
    rewrite Nat.Div0.add_mod_idemp_l.
    do 2 f_equal. f_equal. lia.
Qed.

(** X11.  Rounds rotate through the player list: in a reachable room
    whose presenter sits at index [i] of [n] players, [m] consecutive
    [startNextRound] calls leave the players as they are and make the
    player at index [(i + m) mod n] the presenter; after [n] rounds the
    role is back with the same player. *)
Theorem rounds_rotate_presenter roomId rooms (i : nat) p ks :
  reachable rooms ->
  JsMap.values (players (room_at roomId rooms)) !! i = Some p ->
  roundOwner (room_at roomId rooms) = Some (socketId p) ->
  let ps := JsMap.values (players (room_at roomId rooms)) in
  let room' := room_at roomId (run (rounds roomId ks) rooms) in
  players room' = players (room_at roomId rooms)
  /\ roundOwner room'
     = socketId <$> ps !! ((i + List.length ks) mod List.length ps)%nat
  /\ (List.length ks = List.length ps -> roundOwner room' = Some (socketId p)).
Proof.
  intros Hreach Hi Hp. simpl. rewrite room_at_run.
  destruct (reachable_well_keyed _ rooms roomId Hreach) as [Hnd Hk].
  assert (NoDup (List.map socketId (JsMap.values (players (room_at roomId rooms)))))
    as Hids by (by rewrite keyed_socketIds).
  destruct (rounds_owner roomId ks _ i p Hids Hi Hp) as [Hplayers Howner].
  split; [done|]. split; [done|].
  intros Hlen. rewrite Howner, Hlen.
  assert (i < List.length (JsMap.values (players (room_at roomId rooms))))%nat
    as Hlt by (by apply lookup_lt_Some with p).
  replace ((i + _) mod _)%nat with i; [by rewrite Hi|].
  rewrite <- Nat.Div0.add_mod_idemp_r, Nat.Div0.mod_same, Nat.add_0_r.
  symmetry. by apply Nat.mod_small.
Qed.

Lemma abc_rooms_reachable : reachable abc_rooms.
Proof. apply reachable_run, abc_drawn. Qed.

Lemma rounds_rotate_presenter_witness :
  roundOwner (room_at "r" (run (rounds "r" [4%nat; 1%nat; 7%nat]) abc_rooms))
  = Some "A".
Proof.
  exact (proj2 (proj2 (rounds_rotate_presenter "r" abc_rooms 0
                         (mkPlayer "A" "a" 0) [4%nat; 1%nat; 7%nat]
                         abc_rooms_reachable eq_refl eq_refl)) eq_refl).
Defined.

(** X12.  Strokes are kept in the order they arrive: consecutive
    [appendShape] calls on a room leave its stroke log as the old log
    followed by the appended records, in call order. *)
Theorem strokes_accumulate_in_order roomId records rooms :
  shapes (room_at roomId (run (strokes roomId records) rooms))
  = (shapes (room_at roomId rooms) ++ records)%list.
Proof.
  rewrite room_at_run. generalize (room_at roomId rooms).
  induction records as [|record records IH]; intros room; simpl.
  - by rewrite app_nil_r.
  - rewrite String.eqb_refl, IH. simpl. by rewrite <- app_assoc.
Qed.

(** ** [setCurrentWord] and [getCurrentWord] *)

(** X13.  [getCurrentWord] reads back what [setCurrentWord] stored for the
    room, is not affected by [setCurrentWord] on another room, and reads
    [undefined] for a room that was never seen. *)
Theorem getCurrentWord_reads_setCurrentWord roomId word owner rooms :
  GameService.getCurrentWord roomId
    (GameService.setCurrentWord roomId word owner rooms) = Some word
  /\ (forall other, other <> roomId ->
        GameService.getCurrentWord other
          (GameService.setCurrentWord roomId word owner rooms)
        = GameService.getCurrentWord other rooms)
  /\ (rooms !! roomId = None -> GameService.getCurrentWord roomId rooms = None).
Proof.
  rewrite setCurrentWord_rooms. unfold GameService.getCurrentWord.
  rewrite lookup_insert_eq. repeat split.
  - intros other Hne. by rewrite lookup_insert_ne.
  - by intros ->.
Qed.

(** ** The gateway: joining *)




Lemma presenter_left_reachable : reachable presenter_left.
Proof. apply reachable_run. repeat constructor; simpl; lia. Qed.


(** ** The gateway: guessing and the next round *)

(** X16.  When the timer of a correct guess fires on a room without
    players, nothing is sent and no room changes.  On a room with
    players, the new presenter is one of the current players, whoever
    held the role before; the stroke log is empty; and the room is told
    to clear, is told the presenter, and the word drawn goes to the
    presenter's socket room, in this order. *)
Theorem onGuessTimeout_starts_round roomId k rooms :
  reachable rooms ->
  let room := room_at roomId rooms in
  let handled := GameGateway.onGuessTimeout roomId k rooms in
  let room' := room_at roomId (rooms_after handled) in
  (players room = [] ->
   emitted handled = []
   /\ forall roomId', room_at roomId' (rooms_after handled) = room_at roomId' rooms)
  /\ (players room <> [] ->
      exists p,
        In p (JsMap.values (players room))
        /\ roundOwner room' = Some (socketId p)
        /\ JsMap.has (socketId p) (players room') = true
        /\ players room' = players room
        /\ shapes room' = []
        /\ currentWord room' = mockWords !! k
        /\ emitted handled
           = [ mkEmit (ToRoom roomId) newRoundStarting;
               mkEmit (ToRoom roomId) (presenterAssigned (socketId p) (name p));
               mkEmit (ToRoom (socketId p)) (roundStarted (mockWords !! k)) ]).
Proof.
  intros Hreach. simpl. unfold GameGateway.onGuessTimeout.
  rewrite (surjective_pairing (GameService.startNextRound roomId k rooms)).
  rewrite startNextRound_result, startNextRound_rooms.
  set (room := room_at roomId rooms).
  destruct (reachable_well_keyed _ rooms roomId Hreach) as [_ Hk]. fold room in Hk.
  unfold advanced.
  destruct (nextPresenter room) as [p|] eqn:Hnext; simpl.
  - split.
    + intros Hnil. unfold nextPresenter in Hnext. by rewrite Hnil in Hnext.
    + intros _. exists p. rewrite room_at_insert, String.eqb_refl. simpl.
      pose proof (nextPresenter_In room p Hnext) as Hin.
      repeat split; try done. by apply (keyed_value_member room p Hk).
  - split.
    + intros _. split; [done|]. intros roomId'. apply room_at_ensured.
    + intros Hne. unfold nextPresenter in Hnext.
      destruct (JsMap.values (players room)) eqn:Hps; [|done].
      by apply values_nil in Hps.
Qed.

Lemma onGuessTimeout_starts_round_witness :
  emitted (GameGateway.onGuessTimeout "r1" 4 presenter_left) = []
  /\ forall roomId',
       room_at roomId' (rooms_after (GameGateway.onGuessTimeout "r1" 4 presenter_left))
       = room_at roomId' presenter_left.
Proof.
  exact (proj1 (onGuessTimeout_starts_round "r1" 4 presenter_left
                  presenter_left_reachable) eq_refl).
Defined.

Lemma guessed_frame sid guess room :
  shapes (guessed sid guess room) = shapes room
  /\ currentWord (guessed sid guess room) = currentWord room
  /\ roundOwner (guessed sid guess room) = roundOwner room
  /\ JsMap.keys (players (guessed sid guess room)) = JsMap.keys (players room).
Proof.
  unfold guessed. destruct (_ && _); simpl; [|done].
  repeat split. apply keys_mutate.
Qed.

(** X17.  A guess is always announced to the whole room, and the
    next-round timer (3000 ms) is armed exactly when the guess is
    correct, together with the round-end notice.  The handler itself
    never ends the round: in every room stroke log, secret, presenter and
    the order of players are as before, and after a wrong guess every
    room is as before. *)
Theorem onGuess_arms_timer_when_correct roomId guess client rooms :
  let res := (GameService.checkGuess roomId client guess rooms).1 in
  let handled := GameGateway.onGuess (guess_payload roomId guess) client rooms in
  outcome handled = Returned
  /\ armed handled = (if correct res then [mkTimer roomId 3000] else [])
  /\ (exists announced winner,
        emitted handled
        = mkEmit (ToRoom roomId)
            (guessResult client announced guess (correct res) (score_of res))
          :: (if correct res
              then [mkEmit (ToRoom roomId) (roundEnded client winner (score_of res))]
              else []))
  /\ (forall roomId',
        let room := room_at roomId' rooms in
        let room' := room_at roomId' (rooms_after handled) in
        shapes room' = shapes room
        /\ currentWord room' = currentWord room
        /\ roundOwner room' = roundOwner room
        /\ JsMap.keys (players room') = JsMap.keys (players room))
  /\ (correct res = false ->
      forall roomId', room_at roomId' (rooms_after handled) = room_at roomId' rooms).
Proof.
  simpl. unfold GameGateway.onGuess, guess_payload. simpl.
  pose proof (checkGuess_result roomId client guess rooms) as Hresult.
  pose proof (checkGuess_rooms roomId client guess rooms) as Hrooms.
  destruct (GameService.checkGuess roomId client guess rooms) as [res rooms1].
  simpl in Hresult, Hrooms. subst rooms1.
  rewrite getRoomState_eq. cbn [fst snd].
  assert (Hview : forall roomId',
    room_at roomId'
      (<[roomId := room_at roomId
                     (<[roomId := guessed client guess (room_at roomId rooms)]> rooms)]>
         (<[roomId := guessed client guess (room_at roomId rooms)]> rooms))
    = if String.eqb roomId' roomId
      then guessed client guess (room_at roomId rooms)
      else room_at roomId' rooms).
  { intros roomId'. rewrite !room_at_insert, !String.eqb_refl.
    by destruct (String.eqb roomId' roomId). }
  assert (Hframe : forall roomId',
    let room := room_at roomId' rooms in
    let room' := if String.eqb roomId' roomId
                 then guessed client guess (room_at roomId rooms)
                 else room_at roomId' rooms in
    shapes room' = shapes room /\ currentWord room' = currentWord room
    /\ roundOwner room' = roundOwner room
    /\ JsMap.keys (players room') = JsMap.keys (players room)).
  { intros roomId'. simpl.
    destruct (String.eqb_spec roomId' roomId) as [->|]; [|done].
    apply guessed_frame. }
  assert (Hwrong : correct res = false ->
    guessed client guess (room_at roomId rooms) = room_at roomId rooms).
  { rewrite Hresult. unfold guessed.
    destruct (matches _ _); simpl; [|done].
    by destruct (JsMap.get client _). }
  destruct (correct res) eqn:Hres; simpl;
    (split; [done|]; split; [done|];
     split; [eexists; first [exists None; reflexivity | eexists; reflexivity]|];
     split; [intros roomId'; rewrite Hview; apply Hframe|]).
  - done.
  - intros _ roomId'. rewrite Hview, Hwrong by done.
    by destruct (String.eqb_spec roomId' roomId) as [->|].
Qed.

(** ** The gateway: validation *)


(** ** The gateway: leaving *)


